(** * Imager (roam-imager): image discovery, enrichment, sorting and search

    A shallow embedding of the non-DOM core of the Imager extension
    ([processImageBatch], [getBlockContext], [enhanceImagesWithContext],
    [sortImages], [createImageGrid], the handlers [searchInput.oninput] and
    [sortSelector.onchange], and [showImageGallery]) together with the
    properties its specification states about them. *)

From stdpp Require Import base list gmap strings sorting.
From Stdlib Require Import ZArith NArith Lia DecimalString.

Local Open Scope Z_scope.

(** ** JavaScript strings

    A JavaScript string is a sequence of UTF-16 code units; a code unit is
    modelled as a natural number [N].  String literals of the source are
    written [lit "..."]. *)

Abbreviation jsstring := (list N).

Definition lit (s : string) : jsstring :=
  (fun a => Ascii.N_of_ascii a) <$> String.list_ascii_of_string s.

(** [WhiteSpace] and [LineTerminator] code points of ECMAScript, the
    characters removed by [String.prototype.trim]. *)
Definition isWhiteSpace (c : N) : bool :=
  ((c =? 9) || (c =? 10) || (c =? 11) || (c =? 12) || (c =? 13) || (c =? 32)
   || (c =? 160) || (c =? 5760) || ((8192 <=? c) && (c <=? 8202))
   || (c =? 8232) || (c =? 8233) || (c =? 8239) || (c =? 8287)
   || (c =? 12288) || (c =? 65279))%N.

Fixpoint trimStart (s : jsstring) : jsstring :=
  match s with
  | c :: s' => if isWhiteSpace c then trimStart s' else s
  | [] => []
  end.

Definition trimEnd (s : jsstring) : jsstring := rev (trimStart (rev s)).

(** [s.trim()] *)
Definition trim (s : jsstring) : jsstring := trimEnd (trimStart s).

Fixpoint startsWith (s t : jsstring) : bool :=
  match t, s with
  | [], _ => true
  | c :: t', d :: s' => (c =? d)%N && startsWith s' t'
  | _ :: _, [] => false
  end.

(** [s.includes(t)] *)
Fixpoint includes (s t : jsstring) : bool :=
  startsWith s t ||
  match s with
  | [] => false
  | _ :: s' => includes s' t
  end.

(** A string used as a condition ([if (url)], [a || b], [t ? x : y]) is
    truthy exactly when it is not empty. *)
Definition truthy (s : jsstring) : bool :=
  match s with [] => false | _ => true end.

(** [a || b] on strings *)
Definition orElse (a b : jsstring) : jsstring := if truthy a then a else b.

(** ** The image pattern

    The global pattern [markdownRegex]: an exclamation mark, an opening
    bracket, a first group of any number of characters other than the
    closing bracket, a closing bracket, an opening parenthesis, a second
    group of one or more characters other than the closing parenthesis,
    and a closing parenthesis.  It is run by a backtracking matcher written
    in continuation style: a quantifier first takes as many characters as
    it can and gives them back one by one while the rest of the pattern
    fails. *)

Module Regex.

(** a literal character *)
Definition chr {A} (c : N) (s : jsstring) (k : jsstring -> option A) : option A :=
  match s with
  | x :: s' => if (x =? c)%N then k s' else None
  | [] => None
  end.

(** a group of any number of characters other than [c], greedy; the
    continuation receives the capture and the remaining text *)
Fixpoint starNot {A} (c : N) (s : jsstring)
    (k : jsstring -> jsstring -> option A) : option A :=
  match s with
  | x :: s' =>
      if (x =? c)%N then k [] s
      else match starNot c s' (fun cap rest => k (x :: cap) rest) with
           | Some r => Some r
           | None => k [] s
           end
  | [] => k [] []
  end.

(** a group of one or more characters other than [c], greedy *)
Definition plusNot {A} (c : N) (s : jsstring)
    (k : jsstring -> jsstring -> option A) : option A :=
  match s with
  | x :: s' =>
      if (x =? c)%N then None
      else starNot c s' (fun cap rest => k (x :: cap) rest)
  | [] => None
  end.

Definition bang : N := 33.
Definition lbracket : N := 91.
Definition rbracket : N := 93.
Definition lparen : N := 40.
Definition rparen : N := 41.

(** the result of a successful match: [match[1]], [match[2]] and the text
    after the match (the text from the new [lastIndex] on) *)
Record result := { group1 : jsstring; group2 : jsstring; after : jsstring }.

(** the pattern anchored at the start of [s] *)
Definition matchHere (s : jsstring) : option result :=
  chr bang s (fun s1 =>
  chr lbracket s1 (fun s2 =>
  starNot rbracket s2 (fun g1 s3 =>
  chr rbracket s3 (fun s4 =>
  chr lparen s4 (fun s5 =>
  plusNot rparen s5 (fun g2 s6 =>
  chr rparen s6 (fun s7 =>
  Some {| group1 := g1; group2 := g2; after := s7 |}))))))).

(** [markdownRegex.exec(content)] with the global flag: [s] is the text
    from [lastIndex] on; the leftmost position where the pattern matches
    wins, [None] is JavaScript's [null]. *)
Fixpoint exec (s : jsstring) : option result :=
  match matchHere s with
  | Some r => Some r
  | None =>
      match s with
      | [] => None
      | _ :: s' => exec s'
      end
  end.

End Regex.

(** ** Effects: mutable state, exceptions and loops

    A computation reads and writes a state of type [S] and ends normally,
    by a thrown exception, or without an answer when a loop was cut
    short.  A thrown exception keeps the writes made before it, as a
    JavaScript [throw] does. *)

Inductive outcome (A : Type) : Type :=
| Ok (a : A)
| Throw (error : jsstring)
| OutOfFuel.
Arguments Ok {A} a.
Arguments Throw {A} error.
Arguments OutOfFuel {A}.

Definition M (S A : Type) : Type := S -> outcome A * S.

Definition ret {S A} (a : A) : M S A := fun s => (Ok a, s).

Definition bind {S A B} (m : M S A) (k : A -> M S B) : M S B :=
  fun s =>
    match m s with
    | (Ok a, s') => k a s'
    | (Throw e, s') => (Throw e, s')
    | (OutOfFuel, s') => (OutOfFuel, s')
    end.

#[export] Instance M_ret {S} : MRet (M S) := fun A a => ret a.
#[export] Instance M_bind {S} : MBind (M S) := fun A B k m => bind m k.

Definition throw {S A} (e : jsstring) : M S A := fun s => (Throw e, s).
Definition outOfFuel {S A} : M S A := fun s => (OutOfFuel, s).
Definition gets {S A} (f : S -> A) : M S A := fun s => (Ok (f s), s).
Definition modify {S} (f : S -> S) : M S unit := fun s => (Ok tt, f s).

(** [try { body } catch (error) { handler }] *)
Definition tryCatch {S A} (body : M S A) (handler : jsstring -> M S A) : M S A :=
  fun s =>
    match body s with
    | (Throw e, s') => handler e s'
    | r => r
    end.

(** [for (const x of l) { body }] *)
Fixpoint forOf {S A} (l : list A) (body : A -> M S unit) : M S unit :=
  match l with
  | [] => ret tt
  | x :: l' => body x ;; forOf l' body
  end.

(** ** The host's query interface

    [window.roamAlphaAPI.q] answers a query with a sequence of tuples or
    raises. *)

Inductive qresult (A : Type) : Type :=
| Rows (rows : list A)
| Raises (error : jsstring).
Arguments Rows {A} rows.
Arguments Raises {A} error.

Definition query {S A} (r : qresult A) : M S (list A) :=
  match r with
  | Rows rows => ret rows
  | Raises e => throw e
  end.

(** ** Image records *)

Record image : Type := Image {
  uid : jsstring;
  url : jsstring;
  alt : jsstring;
  createTime : option Z;
  pageTitle : jsstring;
  blockContent : jsstring;
  parentContent : jsstring;
  childrenContent : jsstring;
  siblingsContent : jsstring;
  searchableContent : jsstring;
  contextLoaded : bool
}.

#[export] Instance image_inhabited : Inhabited image :=
  populate (Image [] [] [] None [] [] [] [] [] [] false).

Definition space : jsstring := lit " ".

(** ** Discovery: [processImageBatch] *)

Section Discovery.

(** [String.prototype.toLowerCase], the engine's Unicode case mapping *)
Variable toLowerCase : jsstring -> jsstring.

(** the answer of the host to [blockQuery] for a block identifier: rows
    [[?string, ?page-title]] *)
Variable blockQuery : jsstring -> qresult (jsstring * jsstring).

(** what the function writes: the array [images] and the console *)
Record batchState : Type := BatchState {
  images : list image;
  console : list (jsstring * jsstring)
}.

Definition push (i : image) : M batchState unit :=
  modify (fun st => BatchState (images st ++ [i]) (console st)).

Definition consoleError (message error : jsstring) : M batchState unit :=
  modify (fun st => BatchState (images st) (console st ++ [(message, error)])).

(** the loop [while ((match = markdownRegex.exec(content)) !== null)];
    [rest] is the text from [markdownRegex.lastIndex] on *)
Fixpoint whileExec (fuel : nat) (uid : jsstring) (createTime : Z)
    (content pageTitle rest : jsstring) : M batchState unit :=
  match fuel with
  | O => outOfFuel
  | S fuel' =>
      match Regex.exec rest with
      | None => ret tt
      | Some m =>
          let url := Regex.group2 m in
          ((if truthy url then
              let trimmedUrl := trim url in
              if negb (includes trimmedUrl (lit "mmbiz.qpic.cn")) then
                push {| uid := uid;
                        url := trimmedUrl;
                        alt := orElse (Regex.group1 m) (lit "Image");
                        createTime := if 0 <? createTime then Some createTime else None;
                        pageTitle := orElse pageTitle (lit "Untitled");
                        blockContent := content;
                        parentContent := [];
                        childrenContent := [];
                        siblingsContent := [];
                        searchableContent := toLowerCase (content ++ space ++ pageTitle);
                        contextLoaded := false |}
              else ret tt
            else ret tt) ;;
           whileExec fuel' uid createTime content pageTitle (Regex.after m))
      end
  end.

(** the body of the [for] loop for one [[uid, createTime]] *)
Definition processBlock (entry : jsstring * Z) : M batchState unit :=
  let '(uid, createTime) := entry in
  tryCatch
    (blockResult ← query (blockQuery uid);
     match blockResult with
     | (content, pageTitle) :: _ =>
         whileExec (S (length content)) uid createTime content pageTitle content
     | [] => ret tt
     end)
    (fun error => consoleError (lit "Error processing UID " ++ uid ++ lit ":") error).

Definition processImageBatch (uidBatch : list (jsstring * Z)) : outcome (list image) :=
  match forOf uidBatch processBlock (BatchState [] []) with
  | (Ok _, st) => Ok (images st)
  | (Throw e, _) => Throw e
  | (OutOfFuel, _) => OutOfFuel
  end.

End Discovery.

(** ** Sorting: [sortImages]

    [Array.prototype.sort(comparefn)] is stable and, for a consistent
    comparison function, returns the one stable ordering of its input; it
    is modelled by insertion of each element, last to first, before the
    first element it does not come after.  A negative or zero answer of
    [comparefn x y] leaves [x] before [y]. *)

Fixpoint insertBy {A} (comparefn : A -> A -> Z) (x : A) (l : list A) : list A :=
  match l with
  | [] => [x]
  | y :: l' => if comparefn x y <=? 0 then x :: l else y :: insertBy comparefn x l'
  end.

Fixpoint sortBy {A} (comparefn : A -> A -> Z) (l : list A) : list A :=
  match l with
  | [] => []
  | x :: l' => insertBy comparefn x (sortBy comparefn l')
  end.

Section Sorter.

(** [String.prototype.localeCompare], the engine's collation *)
Variable localeCompare : jsstring -> jsstring -> Z.

(** The body of [sortImages] after the copy [sorted = [...images]].  The
    elements of type [A] are read through [rd]: they are the records
    themselves for an array of values, and references into the store of
    objects for an array shared with other code. *)
Definition sortCopy {A} (rd : A -> image) (sorted : list A) (sortOrder : jsstring)
    : list A :=
  if decide (sortOrder = lit "newest") then
    sortBy (fun a b =>
      match createTime (rd a), createTime (rd b) with
      | None, None => 0
      | None, Some _ => 1
      | Some _, None => -1
      | Some ta, Some tb => tb - ta
      end) sorted
  else if decide (sortOrder = lit "oldest") then
    sortBy (fun a b =>
      match createTime (rd a), createTime (rd b) with
      | None, None => 0
      | None, Some _ => 1
      | Some _, None => -1
      | Some ta, Some tb => ta - tb
      end) sorted
  else if decide (sortOrder = lit "page-alpha") then
    sortBy (fun a b => localeCompare (pageTitle (rd a)) (pageTitle (rd b))) sorted
  else if decide (sortOrder = lit "page-reverse") then
    sortBy (fun a b => localeCompare (pageTitle (rd b)) (pageTitle (rd a))) sorted
  else
    sortBy (fun a b =>
      match createTime (rd a), createTime (rd b) with
      | None, None => 0
      | None, Some _ => 1
      | Some _, None => -1
      | Some ta, Some tb => tb - ta
      end) sorted.

(** [sortImages] on an array of record values *)
Definition sortImages (images : list image) (sortOrder : jsstring) : list image :=
  let sorted := images in
  sortCopy id sorted sortOrder.

End Sorter.

(** ** The store of arrays and objects

    Arrays and image objects live in a store and are passed by reference:
    an array is a sequence of references to objects.  The store also keeps
    what the code writes to the console, the context queries it sends to
    the host, and the calls of the progress callback. *)

Abbreviation loc := nat.

Inductive queryKind : Type := ParentQuery | ChildrenQuery | SiblingsQuery.

Record store : Type := Store {
  arrays : gmap loc (list loc);
  objects : gmap loc image;
  consoleLog : list (jsstring * jsstring);
  queryLog : list (queryKind * jsstring);
  progressLog : list (nat * nat)
}.

Definition typeError : jsstring := lit "TypeError".

Definition readArray (a : loc) : M store (list loc) :=
  fun st =>
    match arrays st !! a with
    | Some elems => (Ok elems, st)
    | None => (Throw typeError, st)
    end.

Definition readObject (o : loc) : M store image :=
  fun st =>
    match objects st !! o with
    | Some img => (Ok img, st)
    | None => (Throw typeError, st)
    end.

Definition writeArray (a : loc) (elems : list loc) : M store unit :=
  modify (fun st =>
    Store (<[a := elems]> (arrays st)) (objects st) (consoleLog st) (queryLog st)
          (progressLog st)).

Definition writeObject (o : loc) (img : image) : M store unit :=
  modify (fun st =>
    Store (arrays st) (<[o := img]> (objects st)) (consoleLog st) (queryLog st)
          (progressLog st)).

(** a reference no array and no object of the store has *)
Definition freshLoc (st : store) : loc :=
  fresh (dom (arrays st) ∪ dom (objects st)).

(** an array literal or spread: a new array with the given elements *)
Definition newArray (elems : list loc) : M store loc :=
  fun st =>
    let a := freshLoc st in
    (Ok a, Store (<[a := elems]> (arrays st)) (objects st) (consoleLog st)
                 (queryLog st) (progressLog st)).

Section SorterOnStore.

Variable localeCompare : jsstring -> jsstring -> Z.

(** [sortImages(images, sortOrder)] on an array of the store: the copy
    [[...images]] is a new array of the same references, which
    [sorted.sort] then reorders in place; the comparison functions read
    the fields of the objects the references point to.  The elements of an
    image list are objects of the store. *)
Definition sortImagesRef (images : loc) (sortOrder : jsstring) : M store loc :=
  elems ← readArray images;
  sorted ← newArray elems;
  objs ← gets objects;
  current ← readArray sorted;
  writeArray sorted (sortCopy localeCompare (fun o => objs !!! o) current sortOrder);;
  mret sorted.

End SorterOnStore.

(** ** Enrichment: [getBlockContext] and [enhanceImagesWithContext] *)

Definition set_parentContent (v : jsstring) (i : image) : image :=
  Image (uid i) (url i) (alt i) (createTime i) (pageTitle i) (blockContent i)
        v (childrenContent i) (siblingsContent i) (searchableContent i)
        (contextLoaded i).

Definition set_childrenContent (v : jsstring) (i : image) : image :=
  Image (uid i) (url i) (alt i) (createTime i) (pageTitle i) (blockContent i)
        (parentContent i) v (siblingsContent i) (searchableContent i)
        (contextLoaded i).

Definition set_siblingsContent (v : jsstring) (i : image) : image :=
  Image (uid i) (url i) (alt i) (createTime i) (pageTitle i) (blockContent i)
        (parentContent i) (childrenContent i) v (searchableContent i)
        (contextLoaded i).

Definition set_searchableContent (v : jsstring) (i : image) : image :=
  Image (uid i) (url i) (alt i) (createTime i) (pageTitle i) (blockContent i)
        (parentContent i) (childrenContent i) (siblingsContent i) v
        (contextLoaded i).

Definition set_contextLoaded (v : bool) (i : image) : image :=
  Image (uid i) (url i) (alt i) (createTime i) (pageTitle i) (blockContent i)
        (parentContent i) (childrenContent i) (siblingsContent i)
        (searchableContent i) v.

(** [image.field = v] *)
Definition assign (o : loc) (set : image -> image) : M store unit :=
  img ← readObject o;
  writeObject o (set img).

(** [Array.prototype.join] *)
Fixpoint join (sep : jsstring) (l : list jsstring) : jsstring :=
  match l with
  | [] => []
  | [s] => s
  | s :: l' => s ++ sep ++ join sep l'
  end.

(** the three strings [getBlockContext] returns *)
Record context : Type := Context {
  ctxParent : jsstring;
  ctxChildren : jsstring;
  ctxSiblings : jsstring
}.

Definition batchSize : nat := 10.

(** [l.slice(i, j)] for [i <= j] *)
Definition slice {A} (i j : nat) (l : list A) : list A := take (j - i) (drop i l).

Section Enricher.

Variable toLowerCase : jsstring -> jsstring.

(** the answers of the host to the queries of [getBlockContext] for a
    block identifier; the siblings rows are [[?sibling-string,
    ?sibling-order]] *)
Variable parentQuery : jsstring -> qresult jsstring.
Variable childrenQuery : jsstring -> qresult jsstring.
Variable siblingsQuery : jsstring -> qresult (jsstring * Z).

(** [await window.roamAlphaAPI.q(...)]: the query is sent, then answered *)
Definition q {A} (kind : queryKind) (uid : jsstring) (answer : qresult A)
    : M store (list A) :=
  modify (fun st =>
    Store (arrays st) (objects st) (consoleLog st) (queryLog st ++ [(kind, uid)])
          (progressLog st));;
  query answer.

Definition consoleErrorS (message error : jsstring) : M store unit :=
  modify (fun st =>
    Store (arrays st) (objects st) (consoleLog st ++ [(message, error)])
          (queryLog st) (progressLog st)).

Definition getBlockContext (uid : jsstring) : M store context :=
  tryCatch
    (parentResults ← q ParentQuery uid (parentQuery uid);
     childrenResults ← q ChildrenQuery uid (childrenQuery uid);
     siblingsResults ← q SiblingsQuery uid (siblingsQuery uid);
     let parentContent := join space parentResults in
     let childrenContent := join space childrenResults in
     let siblingsContent := join space (fst <$> siblingsResults) in
     mret (Context parentContent childrenContent siblingsContent))
    (fun error =>
       consoleErrorS (lit "Error fetching context for block " ++ uid ++ lit ":") error;;
       mret (Context [] [] [])).

(** The callback given to [batch.map] is an [async] function: called on
    an image it runs up to its [await], that is, it tests
    [image.contextLoaded] and, when the flag is off, asks for the context
    of [image.uid]; what follows the [await] runs later, after the
    callback has been called on every image of the batch. *)
Definition callbackStart (o : loc) : M store (option (loc * jsstring)) :=
  img ← readObject o;
  if negb (contextLoaded img) then mret (Some (o, uid img)) else mret None.

(** the callback from its [await] on.  The three queries of one image are
    logged together; in the engine the queries of the images of a batch
    interleave, which changes the order of the log and nothing else. *)
Definition callbackResume (pending : loc * jsstring) : M store unit :=
  let '(o, uid) := pending in
  ctx ← getBlockContext uid;
  assign o (set_parentContent (ctxParent ctx));;
  assign o (set_childrenContent (ctxChildren ctx));;
  assign o (set_siblingsContent (ctxSiblings ctx));;
  img ← readObject o;
  assign o (set_searchableContent
    (toLowerCase (blockContent img ++ space ++ ctxParent ctx ++ space ++
                  ctxChildren ctx ++ space ++ ctxSiblings ctx ++ space ++
                  pageTitle img)));;
  assign o (set_contextLoaded true).

(** [await Promise.all(batch.map(async (image) => ...))] *)
Definition promiseAllMap (batch : list loc) : M store unit :=
  started ← mapM callbackStart batch;
  forOf (omap id started) callbackResume.

Definition reportProgress (processed total : nat) : M store unit :=
  modify (fun st =>
    Store (arrays st) (objects st) (consoleLog st) (queryLog st)
          (progressLog st ++ [(processed, total)])).

(** the loop [for (let i = 0; i < images.length; i += batchSize)];
    [onProgress] tells whether a progress callback was given, and a call
    of the callback is recorded in the store *)
Fixpoint enhanceLoop (fuel : nat) (images : loc) (onProgress : bool) (i : nat)
    : M store unit :=
  elems ← readArray images;
  if (i <? length elems)%nat then
    match fuel with
    | O => outOfFuel
    | S fuel' =>
        let batch := slice i (Nat.min (i + batchSize) (length elems)) elems in
        promiseAllMap batch;;
        (if onProgress
         then reportProgress (Nat.min (i + batchSize) (length elems)) (length elems)
         else mret tt);;
        enhanceLoop fuel' images onProgress (i + batchSize)%nat
    end
  else mret tt.

Definition enhanceImagesWithContext (images : loc) (onProgress : bool) : M store loc :=
  elems ← readArray images;
  enhanceLoop (length elems) images onProgress 0%nat;;
  mret images.

End Enricher.

(** ** The data set of the content element

    [content.dataset] keeps the lists as JSON text; what [JSON.parse] reads
    back is what [JSON.stringify] was given, so the data set is modelled as
    holding the lists themselves. *)

Record dataset : Type := Dataset {
  dataAllImages : option (list image);
  dataImages : option (list image);
  dataCurrentPage : option nat
}.

(** the writes of [createImageGrid(images, page, container, allImages)]
    to [container.dataset], with which the function begins *)
Definition createImageGrid (images : list image) (page : nat)
    (allImages : option (list image)) : M dataset unit :=
  modify (fun d => Dataset (dataAllImages d) (Some images) (dataCurrentPage d));;
  modify (fun d => Dataset (dataAllImages d) (dataImages d) (Some page));;
  match allImages with
  | Some all => modify (fun d => Dataset (Some all) (dataImages d) (dataCurrentPage d))
  | None => mret tt
  end.

(** ** An engine to run the model on

    Case mapping and collation belong to the JavaScript engine.  On ASCII
    text [toLowerCase] maps the capital letters to the small ones, and the
    comparison of code units is one consistent ordering of strings. *)

Definition asciiLowerCase (s : jsstring) : jsstring :=
  (fun c => if ((65 <=? c) && (c <=? 90))%N then (c + 32)%N else c) <$> s.

Fixpoint codeUnitCompare (a b : jsstring) : Z :=
  match a, b with
  | [], [] => 0
  | [], _ :: _ => -1
  | _ :: _, [] => 1
  | x :: a', y :: b' =>
      if (x <? y)%N then -1
      else if (y <? x)%N then 1
      else codeUnitCompare a' b'
  end.

(** ** Vocabulary of the specification *)

(** the text of an image marker with the given alt text and URL *)
Definition marker (altText urlText : jsstring) : jsstring :=
  lit "![" ++ altText ++ lit "](" ++ urlText ++ lit ")".

(** a marker is well formed when its alt text has no closing bracket and
    its URL is not empty and has no closing parenthesis *)
Definition wellFormed (altText urlText : jsstring) : Prop :=
  (Regex.rbracket ∉ altText) ∧ urlText ≠ [] ∧ (Regex.rparen ∉ urlText).

Definition startsMarker (s : jsstring) : Prop :=
  ∃ altText urlText rest, wellFormed altText urlText ∧ s = marker altText urlText ++ rest.

(** [markers s ms]: read from left to right, [s] holds the well-formed
    markers [ms] (their alt texts and URLs), each one starting at the first
    position, after the marker before it, where a well-formed marker
    starts *)
Inductive markers : jsstring -> list (jsstring * jsstring) -> Prop :=
| markers_none s :
    (∀ pre suf, s = pre ++ suf → ¬ startsMarker suf) →
    markers s []
| markers_next pre altText urlText rest ms :
    wellFormed altText urlText →
    (∀ p1 p2, pre = p1 ++ p2 → p2 ≠ [] →
              ¬ startsMarker (p2 ++ marker altText urlText ++ rest)) →
    markers rest ms →
    markers (pre ++ marker altText urlText ++ rest) ((altText, urlText) :: ms).

(** the markers of a text, by repeated [exec] *)
Fixpoint execAll (fuel : nat) (s : jsstring) : list (jsstring * jsstring) :=
  match fuel with
  | O => []
  | S fuel' =>
      match Regex.exec s with
      | None => []
      | Some m => (Regex.group1 m, Regex.group2 m) :: execAll fuel' (Regex.after m)
      end
  end.

(** the denylisted domain *)
Definition denylisted (urlText : jsstring) : bool :=
  includes (trim urlText) (lit "mmbiz.qpic.cn").

(** the first maximal run of characters other than [c], and what follows *)
Fixpoint span (c : N) (s : jsstring) : jsstring * jsstring :=
  match s with
  | x :: s' =>
      if (x =? c)%N then ([], s)
      else let '(run, rest) := span c s' in (x :: run, rest)
  | [] => ([], [])
  end.

(** a string with no white space at either end *)
Definition edgeClean (s : jsstring) : Prop :=
  match s with
  | [] => True
  | c :: _ => isWhiteSpace c = false
  end.

(** the record [processImageBatch] pushes for a match with the groups
    [m], in a block with the given identifier, time, text and page title *)
Definition recordOf (toLowerCase : jsstring → jsstring) (uid : jsstring)
    (createTime : Z) (content pageTitle : jsstring) (m : jsstring * jsstring) : image :=
  {| uid := uid;
     url := trim m.2;
     alt := orElse m.1 (lit "Image");
     createTime := if 0 <? createTime then Some createTime else None;
     pageTitle := orElse pageTitle (lit "Untitled");
     blockContent := content;
     parentContent := [];
     childrenContent := [];
     siblingsContent := [];
     searchableContent := toLowerCase (content ++ space ++ pageTitle);
     contextLoaded := false |}.

(** the records of the markers [ms] that are not on the denylisted domain *)
Definition recordsOf (toLowerCase : jsstring → jsstring) (uid : jsstring)
    (createTime : Z) (content pageTitle : jsstring) (ms : list (jsstring * jsstring))
    : list image :=
  recordOf toLowerCase uid createTime content pageTitle
    <$> filter (λ m, denylisted m.2 = false) ms.

Section DiscoveryVocabulary.

Variable toLowerCase : jsstring → jsstring.
Variable blockQuery : jsstring → qresult (jsstring * jsstring).

(** what one block adds to [images], and to the console *)
Definition blockRecords (entry : jsstring * Z) : list image :=
  match blockQuery entry.1 with
  | Rows ((content, pageTitle) :: _) =>
      recordsOf toLowerCase entry.1 entry.2 content pageTitle
        (execAll (S (length content)) content)
  | _ => []
  end.

Definition blockErrors (entry : jsstring * Z) : list (jsstring * jsstring) :=
  match blockQuery entry.1 with
  | Raises e => [(lit "Error processing UID " ++ entry.1 ++ lit ":", e)]
  | Rows _ => []
  end.

End DiscoveryVocabulary.

(** two elements the comparison function does not tell apart *)
Definition tied {A} (comparefn : A → A → Z) (x y : A) : Prop :=
  comparefn x y ≤ 0 ∧ comparefn y x ≤ 0.

#[export] Instance tied_dec {A} (comparefn : A → A → Z) x y :
  Decision (tied comparefn x y).
Proof. unfold tied. apply _. Defined.

(** the orders of the specification *)
Definition newestFirst (a b : image) : Prop :=
  match createTime a, createTime b with
  | Some ta, Some tb => tb ≤ ta
  | None, Some _ => False
  | _, None => True
  end.

Definition oldestFirst (a b : image) : Prop :=
  match createTime a, createTime b with
  | Some ta, Some tb => ta ≤ tb
  | None, Some _ => False
  | _, None => True
  end.

Section EnricherVocabulary.

Variable toLowerCase : jsstring → jsstring.
Variable parentQuery : jsstring → qresult jsstring.
Variable childrenQuery : jsstring → qresult jsstring.
Variable siblingsQuery : jsstring → qresult (jsstring * Z).

(** what [getBlockContext] returns for a block identifier *)
Definition contextOf (uid : jsstring) : context :=
  match parentQuery uid with
  | Rows parentResults =>
      match childrenQuery uid with
      | Rows childrenResults =>
          match siblingsQuery uid with
          | Rows siblingsResults =>
              Context (join space parentResults) (join space childrenResults)
                      (join space (fst <$> siblingsResults))
          | Raises _ => Context [] [] []
          end
      | Raises _ => Context [] [] []
      end
  | Raises _ => Context [] [] []
  end.

(** a record after its enrichment *)
Definition enrich (img : image) : image :=
  let ctx := contextOf (uid img) in
  Image (uid img) (url img) (alt img) (createTime img) (pageTitle img)
        (blockContent img) (ctxParent ctx) (ctxChildren ctx) (ctxSiblings ctx)
        (toLowerCase (blockContent img ++ space ++ ctxParent ctx ++ space ++
                      ctxChildren ctx ++ space ++ ctxSiblings ctx ++ space ++
                      pageTitle img))
        true.

(** the object [o], which was [img0] at the start, once the callbacks of
    the elements [D] have run to their end *)
Definition enrichedOn (D : list loc) (o : loc) (img0 : image) : image :=
  if decide (o ∈ D ∧ contextLoaded img0 = false) then enrich img0 else img0.

(** a query for the block of an element whose flag was off at the start *)
Definition sentFor (st0 : store) (elems : list loc) (e : queryKind * jsstring) : Prop :=
  ∃ o img0, o ∈ elems ∧ objects st0 !! o = Some img0 ∧
            contextLoaded img0 = false ∧ uid img0 = e.2.

(** The state of a run of [enhanceImagesWithContext] that started in the
    store [st0] on an array of elements [elems], once the callbacks of the
    elements [D] have run to their end: no array has changed, an object
    is enriched when it is in [D] and its flag was off at the start and is
    as it was otherwise, and every query sent since the start is for the
    block of an element whose flag was off at the start. *)
Record consistent (st0 : store) (elems D : list loc) (st : store) : Prop := {
  con_arrays : arrays st = arrays st0;
  con_objects : ∀ o, objects st !! o = enrichedOn D o <$> objects st0 !! o;
  con_queries : ∃ ql, queryLog st = queryLog st0 ++ ql ∧ Forall (sentFor st0 elems) ql
}.

(** the images of a batch whose callback waits for a context *)
Definition pendingOf (st0 : store) (D batch : list loc) : list (loc * jsstring) :=
  omap (λ o, match objects st0 !! o with
             | Some img0 =>
                 if decide ((o ∉ D) ∧ contextLoaded img0 = false)
                 then Some (o, uid img0) else None
             | None => None
             end) batch.

End EnricherVocabulary.

(** ** Sample data: the scenarios of the specification *)

Definition scenarioText : jsstring :=
  lit "See this: ![cat](http://x.com/cat.png) and ![](http://x.com/dog.jpg)".

Definition scenarioHost (content : jsstring) (uid : jsstring)
    : qresult (jsstring * jsstring) :=
  Rows [(content, lit "Page")].

(** a record with the given time and page title *)
Definition sampleImage (t : option Z) (title : jsstring) (loaded : bool) : image :=
  Image (lit "uid") (lit "http://x.com/a.png") (lit "Image") t title
        (lit "![](http://x.com/a.png)") [] [] []
        (lit "![](http://x.com/a.png) ") loaded.

Definition sampleStore : store :=
  Store {[ 0%nat := [1; 2; 3]%nat ]}
        {[ 1%nat := sampleImage None (lit "b") true;
           2%nat := sampleImage (Some 100) (lit "a") false;
           3%nat := sampleImage (Some 50) (lit "c") false ]}
        [] [] [].

(** ** The rest of the gallery: scan, grid, sort handler and loading

    What follows models the functions around the ones above: the
    identifier scan [getImageBlockUids], the page and column logic of
    [createImageGrid], the handler [sortSelector.onchange] and the loading
    sequence of [showImageGallery]. *)

(** the comparison function [sortImages] sorts with in a mode *)
Definition comparatorOf (localeCompare : jsstring → jsstring → Z)
    (sortOrder : jsstring) (a b : image) : Z :=
  if decide (sortOrder = lit "oldest") then
    match createTime a, createTime b with
    | None, None => 0
    | None, Some _ => 1
    | Some _, None => -1
    | Some ta, Some tb => ta - tb
    end
  else if decide (sortOrder = lit "page-alpha") then
    localeCompare (pageTitle a) (pageTitle b)
  else if decide (sortOrder = lit "page-reverse") then
    localeCompare (pageTitle b) (pageTitle a)
  else
    match createTime a, createTime b with
    | None, None => 0
    | None, Some _ => 1
    | Some _, None => -1
    | Some ta, Some tb => tb - ta
    end.

(** what [console.log] and [console.error] are given *)
Inductive consoleEntry : Type :=
| LogEntry (message : jsstring)
| ErrorEntry (message error : jsstring).

(** a length or count in a template literal *)
Definition decimal (n : nat) : jsstring :=
  lit (DecimalString.NilZero.string_of_uint (Nat.to_uint n)).

(** a computation on a part of the state *)
Definition zoom {S T A} (get : S → T) (set : T → S → S) (m : M T A) : M S A :=
  fun s => let '(r, t) := m (get s) in (r, set t s).

(** an [await] of a promise that is settled with the given outcome *)
Definition await {S A} (r : outcome A) : M S A := fun s => (r, s).

Section Scan.

(** the answer of the host to the scan query: rows [[?uid, ?create-time]],
    the time being 0 for a block without one *)
Variable scanQuery : qresult (jsstring * Z).

(** [x || 0] on a number *)
Definition orZero (x : Z) : Z := if x =? 0 then 0 else x.

Definition getImageBlockUids : M (list consoleEntry) (list (jsstring * Z)) :=
  tryCatch
    (modify (λ c, c ++ [LogEntry (lit "Getting image block UIDs...")]);;
     results ← query scanQuery;
     modify (λ c, c ++ [LogEntry (lit "Found " ++ decimal (length results) ++
                                  lit " blocks potentially containing images")]);;
     let results := sortBy (λ a b, orZero b.2 - orZero a.2) results in
     mret results)
    (λ error,
       modify (λ c, c ++ [ErrorEntry (lit "Error fetching image UIDs:") error]);;
       mret []).

End Scan.

(** *** The grid *)

(** [l.slice(start, end)]: an index below zero counts from the end *)
Definition relativeIndex (len : nat) (k : Z) : nat :=
  if k <? 0 then Z.to_nat (Z.max (Z.of_nat len + k) 0)
  else Nat.min (Z.to_nat k) len.

Definition jsSlice {A} (start finish : Z) (l : list A) : list A :=
  let from := relativeIndex (length l) start in
  let to := relativeIndex (length l) finish in
  take (to - from) (drop from l).

(** the images of a page: [pageImages] in [createImageGrid] *)
Definition pageImagesOf (perPage : Z) (images : list image) (page : nat) : list image :=
  let startIdx := (Z.of_nat page - 1) * perPage in
  let endIdx := Z.min (startIdx + perPage) (Z.of_nat (length images)) in
  jsSlice startIdx endIdx images.

(** the search for the shortest column: the loop over [i] from 1 on, with
    [minHeight] and [targetColumn] *)
Fixpoint shortestFrom (heights : list Z) (i : nat) (minHeight : Z) (targetColumn : nat)
    : nat :=
  match heights with
  | [] => targetColumn
  | h :: heights' =>
      if h <? minHeight then shortestFrom heights' (S i) h i
      else shortestFrom heights' (S i) minHeight targetColumn
  end.

Definition shortestColumn (columnHeights : list Z) : nat :=
  match columnHeights with
  | [] => 0%nat
  | h0 :: heights' => shortestFrom heights' 1 h0 0
  end.

(** [Math.ceil(len / perPage)]; the quotient by zero of a positive length
    is [Infinity] *)
Inductive pageCount : Type :=
| Pages (n : Z)
| Infinity.

Definition totalPagesOf (len : nat) (perPage : Z) : pageCount :=
  if perPage =? 0 then Infinity else Pages (- ((- Z.of_nat len) / perPage)).

(** [page === totalPages] *)
Definition isPage (page : nat) (totalPages : pageCount) : bool :=
  match totalPages with
  | Pages n => Z.of_nat page =? n
  | Infinity => false
  end.

(** the pagination controls: the state of the two buttons, the page each
    asks for when clicked, and the numbers of the text between them *)
Record pager : Type := Pager {
  prevDisabled : bool;
  prevTarget : Z;
  nextDisabled : bool;
  nextTarget : Z;
  pagerPage : nat;
  pagerTotal : pageCount;
  pagerImages : nat
}.

(** the grid: the image tiles of each column, top to bottom, and the
    pagination controls, when there are any *)
Record gridView : Type := GridView {
  columns : list (list image);
  pagination : option pager
}.

(** what the content element of the popup shows *)
Inductive contentView : Type :=
| Blank
| LoadingIndicator
| NoImagesFound
| GridShown (g : gridView).

(** the content element: its data set, what it shows, and the calls of
    [createImageGrid] on it so far (the images and the page of each) *)
Record container : Type := Container {
  dataOf : dataset;
  viewOf : contentView;
  drawn : list (list image * nat)
}.

Definition rangeError : jsstring := lit "RangeError".

Definition setView (v : contentView) : M container unit :=
  modify (λ c, Container (dataOf c) v (drawn c)).

(** the columns of the grid and [new Array(IMAGES_PER_ROW).fill(0)] *)
Definition newColumns (perRow : Z) : M container (list (list image) * list Z) :=
  let columns := replicate (Z.to_nat perRow) [] in
  if perRow <? 0 then throw rangeError
  else mret (columns, replicate (Z.to_nat perRow) 0).

(** the body of [pageImages.forEach]: the tile goes to the shortest
    column, whose estimated height grows by 300 *)
Definition placeImage (img : image) (layout : list (list image) * list Z)
    : M container (list (list image) * list Z) :=
  let '(columns, columnHeights) := layout in
  let targetColumn := shortestColumn columnHeights in
  match columns !! targetColumn with
  | Some column =>
      mret (<[targetColumn := column ++ [img]]> columns,
            <[targetColumn := (columnHeights !!! targetColumn) + 300]> columnHeights)
  | None => throw typeError
  end.

Fixpoint forEachPlace (pageImages : list image) (layout : list (list image) * list Z)
    : M container (list (list image) * list Z) :=
  match pageImages with
  | [] => mret layout
  | img :: pageImages' =>
      layout' ← placeImage img layout;
      forEachPlace pageImages' layout'
  end.

(** [createImageGrid(images, page, container, allImages)] for the settings
    [IMAGES_PER_ROW] and [IMAGES_PER_PAGE], which are integers *)
Definition createImageGridView (perRow perPage : Z) (images : list image) (page : nat)
    (allImages : option (list image)) : M container unit :=
  modify (λ c, Container (dataOf c) Blank (drawn c ++ [(images, page)]));;
  zoom dataOf (λ d c, Container d (viewOf c) (drawn c))
       (createImageGrid images page allImages);;
  let pageImages := pageImagesOf perPage images page in
  layout ← newColumns perRow;
  layout ← forEachPlace pageImages layout;
  setView (GridShown (GridView layout.1 None));;
  if perPage <? Z.of_nat (length images) then
    let totalPages := totalPagesOf (length images) perPage in
    setView (GridShown (GridView layout.1 (Some
      {| prevDisabled := bool_decide (page = 1%nat);
         prevTarget := Z.of_nat page - 1;
         nextDisabled := isPage page totalPages;
         nextTarget := Z.of_nat page + 1;
         pagerPage := page;
         pagerTotal := totalPages;
         pagerImages := length images |})))
  else mret tt.

(** *** The application *)

(** the variables of the module, [localStorage], the popup (whether its
    overlay is in the document, its content element, its search box and
    the loading text), the console, and the enrichment runs started *)
Record gallery : Type := Gallery {
  SORT_ORDER : jsstring;
  IMAGES_PER_ROW : Z;
  IMAGES_PER_PAGE : Z;
  localStorage : gmap jsstring jsstring;
  popupOpen : bool;
  contentOf : container;
  searchDisabled : bool;
  loadingInfo : option jsstring;
  consoleOf : list consoleEntry;
  enrichmentRuns : list (list image)
}.

Definition set_SORT_ORDER (v : jsstring) (a : gallery) : gallery :=
  Gallery v (IMAGES_PER_ROW a) (IMAGES_PER_PAGE a) (localStorage a) (popupOpen a)
      (contentOf a) (searchDisabled a) (loadingInfo a) (consoleOf a) (enrichmentRuns a).

Definition set_localStorage (v : gmap jsstring jsstring) (a : gallery) : gallery :=
  Gallery (SORT_ORDER a) (IMAGES_PER_ROW a) (IMAGES_PER_PAGE a) v (popupOpen a)
      (contentOf a) (searchDisabled a) (loadingInfo a) (consoleOf a) (enrichmentRuns a).

Definition set_popupOpen (v : bool) (a : gallery) : gallery :=
  Gallery (SORT_ORDER a) (IMAGES_PER_ROW a) (IMAGES_PER_PAGE a) (localStorage a) v
      (contentOf a) (searchDisabled a) (loadingInfo a) (consoleOf a) (enrichmentRuns a).

Definition set_contentOf (v : container) (a : gallery) : gallery :=
  Gallery (SORT_ORDER a) (IMAGES_PER_ROW a) (IMAGES_PER_PAGE a) (localStorage a) (popupOpen a)
      v (searchDisabled a) (loadingInfo a) (consoleOf a) (enrichmentRuns a).

Definition set_searchDisabled (v : bool) (a : gallery) : gallery :=
  Gallery (SORT_ORDER a) (IMAGES_PER_ROW a) (IMAGES_PER_PAGE a) (localStorage a) (popupOpen a)
      (contentOf a) v (loadingInfo a) (consoleOf a) (enrichmentRuns a).

Definition set_loadingInfo (v : option jsstring) (a : gallery) : gallery :=
  Gallery (SORT_ORDER a) (IMAGES_PER_ROW a) (IMAGES_PER_PAGE a) (localStorage a) (popupOpen a)
      (contentOf a) (searchDisabled a) v (consoleOf a) (enrichmentRuns a).

Definition set_consoleOf (v : list consoleEntry) (a : gallery) : gallery :=
  Gallery (SORT_ORDER a) (IMAGES_PER_ROW a) (IMAGES_PER_PAGE a) (localStorage a) (popupOpen a)
      (contentOf a) (searchDisabled a) (loadingInfo a) v (enrichmentRuns a).

Definition set_enrichmentRuns (v : list (list image)) (a : gallery) : gallery :=
  Gallery (SORT_ORDER a) (IMAGES_PER_ROW a) (IMAGES_PER_PAGE a) (localStorage a) (popupOpen a)
      (contentOf a) (searchDisabled a) (loadingInfo a) (consoleOf a) v.

(** a computation on the content element of the popup *)
Definition onContent {A} (m : M container A) : M gallery A :=
  zoom contentOf set_contentOf m.

(** a computation on the data set of the content element *)
Definition onDataset {A} (m : M dataset A) : M gallery A :=
  onContent (zoom dataOf (λ d c, Container d (viewOf c) (drawn c)) m).

(** [createImageGrid(images, page, content, allImages)] with the current
    settings *)
Definition drawGrid (images : list image) (page : nat) (allImages : option (list image))
    : M gallery unit :=
  perRow ← gets IMAGES_PER_ROW;
  perPage ← gets IMAGES_PER_PAGE;
  onContent (createImageGridView perRow perPage images page allImages).

(** [parseInt(content.dataset.currentPage) || 1]: the page kept in the
    data set, and 1 when there is none or it is 0 *)
Definition currentPageOf (d : dataset) : nat :=
  match dataCurrentPage d with
  | Some (S n) => S n
  | _ => 1%nat
  end.

(** the search box is looked up in the document by its identifier *)
Definition enableSearch : M gallery unit :=
  isOpen ← gets popupOpen;
  if (isOpen : bool) then modify (set_searchDisabled false) else mret tt.

Section GalleryCode.

Variable toLowerCase : jsstring → jsstring.
Variable localeCompare : jsstring → jsstring → Z.
Variable scanQuery : qresult (jsstring * Z).
Variable blockQuery : jsstring → qresult (jsstring * jsstring).

(** [sortSelector.onchange]; [value] is [e.target.value] *)
Definition sortSelector_onchange (value : jsstring) : M gallery unit :=
  modify (set_SORT_ORDER value);;
  sortOrder ← gets SORT_ORDER;
  modify (λ a, set_localStorage (<[lit "imager-sort-order" := sortOrder]> (localStorage a)) a);;
  stored ← gets (λ a, dataAllImages (dataOf (contentOf a)));
  match stored with
  | Some allImages =>
      sortOrder ← gets SORT_ORDER;
      let sortedImages := sortImages localeCompare allImages sortOrder in
      onDataset (modify (λ d, Dataset (Some sortedImages) (dataImages d) (dataCurrentPage d)));;
      onDataset (modify (λ d, Dataset (dataAllImages d) (Some sortedImages) (dataCurrentPage d)));;
      drawGrid sortedImages 1 (Some sortedImages)
  | None => mret tt
  end.

(** [searchInput.oninput]; [value] is [e.target.value].  The handler
    ends in [createImageGrid(filteredImages, 1, content)]. *)
Definition oninput (value : jsstring) : M gallery unit :=
  let searchTerm := toLowerCase value in
  stored ← gets (λ a, dataAllImages (dataOf (contentOf a)));
  match stored with
  | Some allImages =>
      let filteredImages :=
        if truthy searchTerm
        then filter (λ img, includes (searchableContent img) searchTerm = true) allImages
        else allImages in
      sortOrder ← gets SORT_ORDER;
      let filteredImages := sortImages localeCompare filteredImages sortOrder in
      onDataset (modify (λ d, Dataset (dataAllImages d) (Some filteredImages)
                                      (dataCurrentPage d)));;
      drawGrid filteredImages 1 None
  | None => mret tt
  end.

(** [createPopup()] and [document.body.appendChild(overlay)]: a new
    content element that shows the loading indicator, and a search box
    that is disabled *)
Definition createPopup : M gallery unit :=
  modify (set_contentOf (Container (Dataset None None None) LoadingIndicator []));;
  modify (set_searchDisabled true);;
  modify (set_loadingInfo None);;
  modify (set_popupOpen true).

(** the loop [for (let i = 0; i < remainingUids.length; i += batchSize)]
    of [showImageGallery], which returns the last [allImages] *)
Fixpoint hydrateLoop (fuel : nat) (imageUidsLength : nat)
    (remainingUids : list (jsstring * Z)) (i : nat) (allImages : list image)
    : M gallery (list image) :=
  if (i <? length remainingUids)%nat then
    match fuel with
    | O => outOfFuel
    | S fuel' =>
        let batchSize := 50%nat in
        let batch := slice i (Nat.min (i + batchSize) (length remainingUids))
                           remainingUids in
        newImages ← await (processImageBatch toLowerCase blockQuery batch);
        let allImages := allImages ++ newImages in
        sortOrder ← gets SORT_ORDER;
        let allImages := sortImages localeCompare allImages sortOrder in
        modify (set_loadingInfo (Some (lit "Loading " ++ decimal (length allImages) ++
                                       lit " of " ++ decimal imageUidsLength ++
                                       lit " images...")));;
        d ← gets (λ a, dataOf (contentOf a));
        let currentPage := currentPageOf d in
        (if (currentPage =? 1)%nat then drawGrid allImages 1 (Some allImages)
         else
           onDataset (modify (λ d, Dataset (Some allImages) (dataImages d)
                                           (dataCurrentPage d)));;
           onDataset (modify (λ d, Dataset (dataAllImages d) (Some allImages)
                                           (dataCurrentPage d))));;
        hydrateLoop fuel' imageUidsLength remainingUids (i + batchSize)%nat allImages
    end
  else mret allImages.

Definition showImageGallery : M gallery unit :=
  isOpen ← gets popupOpen;
  if (isOpen : bool) then mret tt
  else
    createPopup;;
    imageUids ← zoom consoleOf set_consoleOf (getImageBlockUids scanQuery);
    if (length imageUids =? 0)%nat then onContent (setView NoImagesFound)
    else
      let firstBatchSize := Nat.min 50 (length imageUids) in
      let firstBatch := slice 0 firstBatchSize imageUids in
      let remainingUids := drop firstBatchSize imageUids in
      firstImages ← await (processImageBatch toLowerCase blockQuery firstBatch);
      let allImages := firstImages in
      sortOrder ← gets SORT_ORDER;
      let allImages := sortImages localeCompare allImages sortOrder in
      drawGrid allImages 1 (Some allImages);;
      if (0 <? length remainingUids)%nat then
        modify (set_loadingInfo (Some (lit "Loading " ++ decimal (length firstImages) ++
                                       lit " of " ++ decimal (length imageUids) ++
                                       lit " images...")));;
        allImages ← hydrateLoop (length remainingUids) (length imageUids)
                                remainingUids 0 allImages;
        modify (set_loadingInfo None);;
        enableSearch;;
        modify (λ a, set_enrichmentRuns (enrichmentRuns a ++ [allImages]) a)
      else enableSearch.

End GalleryCode.

(** *** Sample data for the gallery *)

(** five records of different times and pages *)
Definition sampleImages : list image :=
  [sampleImage (Some 300) (lit "b") false; sampleImage None (lit "a") false;
   sampleImage (Some 100) (lit "c") false; sampleImage (Some 200) (lit "a") false;
   sampleImage (Some 100) (lit "d") false].

(** the module as it is loaded: the defaults, and no popup *)
Definition initialGallery : gallery :=
  Gallery (lit "newest") 6 50 ∅ false
          (Container (Dataset None None None) Blank []) true None [] [].

(** the gallery open on page 2 of the sample records, two on a page *)
Definition browsingGallery : gallery :=
  Gallery (lit "newest") 6 2 ∅ true
          (Container (Dataset (Some sampleImages) (Some sampleImages) (Some 2%nat))
                     Blank []) false None [] [].


(** a host whose block query raises for the block [bad] and answers with
    the scenario text for every other block *)
Definition flakyHost (uid : jsstring) : qresult (jsstring * jsstring) :=
  if decide (uid = lit "bad") then Raises (lit "timeout")
  else Rows [(scenarioText, lit "Page")].

(** a scan that finds 120 blocks *)
Definition sampleRows : list (jsstring * Z) :=
  (λ k, (lit "block", Z.of_nat k)) <$> seq 1 120.

(** ** Facts about strings *)

Lemma trimStart_edge s : edgeClean (trimStart s).
Proof.
  induction s as [|c s IH]; simpl; [done|].
  destruct (isWhiteSpace c) eqn:E; [done|]. simpl. done.
Qed.

Lemma trimStart_id s : edgeClean s → trimStart s = s.
Proof. destruct s as [|c s]; simpl; [done|]. by intros ->. Qed.

Lemma trimStart_suffix s : ∃ ws, s = ws ++ trimStart s.
Proof.
  induction s as [|c s [ws IH]]; simpl.
  - by exists [].
  - destruct (isWhiteSpace c).
    + exists (c :: ws). simpl. by f_equal.
    + by exists [].
Qed.

Lemma trimEnd_prefix s : ∃ ws, s = trimEnd s ++ ws.
Proof.
  unfold trimEnd. destruct (trimStart_suffix (rev s)) as [ws E].
  exists (rev ws). rewrite <- rev_app_distr, <- E. by rewrite rev_involutive.
Qed.

Lemma trimEnd_edge_rev s : edgeClean (rev (trimEnd s)).
Proof. unfold trimEnd. rewrite rev_involutive. apply trimStart_edge. Qed.

Lemma trimEnd_edge s : edgeClean s → edgeClean (trimEnd s).
Proof.
  intros H. destruct (trimEnd_prefix s) as [ws E].
  destruct (trimEnd s) as [|c t]; [done|].
  rewrite E in H. exact H.
Qed.

Lemma trim_edges s : edgeClean (trim s) ∧ edgeClean (rev (trim s)).
Proof.
  unfold trim. split.
  - apply trimEnd_edge, trimStart_edge.
  - apply trimEnd_edge_rev.
Qed.

(** [trim] removes nothing from a string it has already trimmed. *)
Lemma trim_idempotent s : trim (trim s) = trim s.
Proof.
  destruct (trim_edges s) as [H1 H2].
  unfold trim at 1. rewrite (trimStart_id _ H1).
  unfold trimEnd. rewrite (trimStart_id _ H2). apply rev_involutive.
Qed.

Lemma startsWith_nil s : startsWith s [] = true.
Proof. by destruct s. Qed.

Lemma includes_nil s : includes s [] = true.
Proof. destruct s; simpl; by rewrite ?startsWith_nil. Qed.

(** ** Facts about the image pattern *)

Lemma span_app c s : s = (span c s).1 ++ (span c s).2.
Proof.
  induction s as [|x s IH]; simpl; [done|].
  destruct (x =? c)%N; [done|].
  destruct (span c s) as [run rest]. simpl in *. by f_equal.
Qed.

Lemma span_run c s : c ∉ (span c s).1.
Proof.
  induction s as [|x s IH]; simpl; [apply not_elem_of_nil|].
  destruct (x =? c)%N eqn:E; [apply not_elem_of_nil|].
  destruct (span c s) as [run rest]. simpl in *.
  apply N.eqb_neq in E. apply not_elem_of_cons. split; [congruence | done].
Qed.

Lemma span_rest c s : (span c s).2 = [] ∨ ∃ t, (span c s).2 = c :: t.
Proof.
  induction s as [|x s IH]; simpl; [by left|].
  destruct (x =? c)%N eqn:E.
  - apply N.eqb_eq in E. subst. right. by eexists.
  - destruct (span c s) as [run rest]. exact IH.
Qed.

Lemma span_unique c run rest :
  c ∉ run → span c (run ++ c :: rest) = (run, c :: rest).
Proof.
  induction run as [|x run IH]; simpl; intros H.
  - by rewrite N.eqb_refl.
  - apply not_elem_of_cons in H as [Hx Hrun].
    assert (x ≠ c) as Hx' by congruence. apply N.eqb_neq in Hx'. rewrite Hx'.
    by rewrite IH.
Qed.

(** A greedy group hands back characters only while the rest of the
    pattern fails; when the rest of the pattern cannot start with a
    character of the group, the group is the maximal run. *)
Lemma starNot_span {A} c s (k : jsstring → jsstring → option A) :
  (∀ cap x rest, x ≠ c → k cap (x :: rest) = None) →
  Regex.starNot c s k = k (span c s).1 (span c s).2.
Proof.
  revert k. induction s as [|x s IH]; intros k Hk; simpl; [done|].
  destruct (x =? c)%N eqn:E; [done|].
  rewrite IH by (intros; by apply Hk).
  destruct (span c s) as [run rest] eqn:Es. simpl.
  destruct (k (x :: run) rest) eqn:Ek; [done|].
  apply Hk. by apply N.eqb_neq.
Qed.

Lemma marker_cons altText urlText rest :
  marker altText urlText ++ rest
  = Regex.bang :: Regex.lbracket :: altText ++
    Regex.rbracket :: Regex.lparen :: urlText ++ Regex.rparen :: rest.
Proof.
  unfold marker. change (lit "![") with [Regex.bang; Regex.lbracket].
  change (lit "](") with [Regex.rbracket; Regex.lparen].
  change (lit ")") with [Regex.rparen].
  simpl. f_equal. f_equal. rewrite <- !app_assoc. simpl. f_equal. f_equal.
  f_equal. by rewrite <- app_assoc.
Qed.

Lemma chr_fails_on_other {A} c x rest (k : jsstring → option A) :
  x ≠ c → Regex.chr c (x :: rest) k = None.
Proof. intros H. simpl. apply N.eqb_neq in H. by rewrite H. Qed.

(** The pattern matches at the head of a well-formed marker, with the alt
    text and the URL as its groups. *)
Lemma matchHere_marker altText urlText rest :
  wellFormed altText urlText →
  Regex.matchHere (marker altText urlText ++ rest)
  = Some (Regex.Build_result altText urlText rest).
Proof.
  intros (Ha & Hne & Hu). rewrite marker_cons. unfold Regex.matchHere.
  simpl. rewrite starNot_span by (intros; by apply chr_fails_on_other).
  rewrite span_unique by done. simpl.
  destruct urlText as [|u urlText]; [done|].
  apply not_elem_of_cons in Hu as [Hu1 Hu2].
  assert (u ≠ Regex.rparen) as Hu1' by congruence.
  simpl. apply N.eqb_neq in Hu1'. rewrite Hu1'.
  rewrite starNot_span by (intros; by apply chr_fails_on_other).
  rewrite span_unique by done. simpl. done.
Qed.

(** Where the pattern matches, the text starts with a well-formed marker
    made of the two groups. *)
Lemma matchHere_Some s m :
  Regex.matchHere s = Some m →
  wellFormed (Regex.group1 m) (Regex.group2 m) ∧
  s = marker (Regex.group1 m) (Regex.group2 m) ++ Regex.after m.
Proof.
  unfold Regex.matchHere. intros H.
  destruct s as [|x1 s]; [done|]. simpl in H.
  destruct (x1 =? Regex.bang)%N eqn:E1; [|done]. apply N.eqb_eq in E1. subst x1.
  destruct s as [|x2 s]; [done|]. simpl in H.
  destruct (x2 =? Regex.lbracket)%N eqn:E2; [|done]. apply N.eqb_eq in E2. subst x2.
  rewrite starNot_span in H by (intros; by apply chr_fails_on_other).
  pose proof (span_app Regex.rbracket s) as Happ.
  pose proof (span_run Regex.rbracket s) as Hrun.
  destruct (span Regex.rbracket s) as [g1 s3]. simpl in H, Happ, Hrun.
  destruct s3 as [|x3 s3]; [done|]. simpl in H.
  destruct (x3 =? Regex.rbracket)%N eqn:E3; [|done]. apply N.eqb_eq in E3. subst x3.
  destruct s3 as [|x4 s3]; [done|]. simpl in H.
  destruct (x4 =? Regex.lparen)%N eqn:E4; [|done]. apply N.eqb_eq in E4. subst x4.
  destruct s3 as [|u s5]; [done|]. simpl in H.
  destruct (u =? Regex.rparen)%N eqn:E5; [done|]. apply N.eqb_neq in E5.
  rewrite starNot_span in H by (intros; by apply chr_fails_on_other).
  pose proof (span_app Regex.rparen s5) as Happ2.
  pose proof (span_run Regex.rparen s5) as Hrun2.
  destruct (span Regex.rparen s5) as [g2 s6]. simpl in H, Happ2, Hrun2.
  destruct s6 as [|x7 s7]; [done|]. simpl in H.
  destruct (x7 =? Regex.rparen)%N eqn:E7; [|done]. apply N.eqb_eq in E7. subst x7.
  injection H as <-. cbn [Regex.group1 Regex.group2 Regex.after]. split.
  - split; [done|]. split; [done|].
    apply not_elem_of_cons. split; [congruence | done].
  - rewrite marker_cons. subst s s5. done.
Qed.

Lemma startsMarker_matchHere s :
  startsMarker s ↔ is_Some (Regex.matchHere s).
Proof.
  split.
  - intros (a & u & rest & Hwf & ->). rewrite matchHere_marker by done. by eexists.
  - intros [m Hm]. apply matchHere_Some in Hm as [Hwf Hs].
    exists (Regex.group1 m), (Regex.group2 m), (Regex.after m). done.
Qed.

(** [exec] skips a prefix in which no marker starts. *)
Lemma exec_skip pre s :
  (∀ p1 p2, pre = p1 ++ p2 → p2 ≠ [] → ¬ startsMarker (p2 ++ s)) →
  Regex.exec (pre ++ s) = Regex.exec s.
Proof.
  induction pre as [|x pre IH]; intros H; [done|].
  change ((x :: pre) ++ s) with (x :: (pre ++ s)).
  assert (Regex.matchHere (x :: pre ++ s) = None) as Hm.
  { destruct (Regex.matchHere (x :: pre ++ s)) eqn:E; [|done].
    exfalso. apply (H [] (x :: pre)); [done..|].
    apply startsMarker_matchHere.
    change ((x :: pre) ++ s) with (x :: pre ++ s). rewrite E. by eexists. }
  cbn [Regex.exec]. rewrite Hm. apply IH.
  intros p1 p2 -> Hne. apply (H (x :: p1) p2); done.
Qed.

Lemma exec_marker altText urlText rest :
  wellFormed altText urlText →
  Regex.exec (marker altText urlText ++ rest)
  = Some (Regex.Build_result altText urlText rest).
Proof.
  intros H. pose proof (matchHere_marker _ _ rest H) as Hm.
  destruct (marker altText urlText ++ rest); cbn [Regex.exec]; by rewrite Hm.
Qed.

Lemma exec_None s :
  (∀ pre suf, s = pre ++ suf → ¬ startsMarker suf) → Regex.exec s = None.
Proof.
  induction s as [|x s IH]; intros H.
  - done.
  - cbn [Regex.exec]. destruct (Regex.matchHere (x :: s)) eqn:E.
    + exfalso. apply (H [] (x :: s)); [done|].
      apply startsMarker_matchHere. rewrite E. by eexists.
    + apply IH. intros pre suf -> . apply (H (x :: pre) suf). done.
Qed.

(** [exec] returns the leftmost match: the text is a prefix in which no
    marker starts, then the marker of the two groups, then the rest. *)
Lemma exec_Some s m :
  Regex.exec s = Some m →
  ∃ pre, s = pre ++ marker (Regex.group1 m) (Regex.group2 m) ++ Regex.after m ∧
         wellFormed (Regex.group1 m) (Regex.group2 m) ∧
         (∀ p1 p2, pre = p1 ++ p2 → p2 ≠ [] →
            ¬ startsMarker (p2 ++ marker (Regex.group1 m) (Regex.group2 m) ++ Regex.after m)).
Proof.
  induction s as [|x s IH]; intros H.
  - done.
  - cbn [Regex.exec] in H. destruct (Regex.matchHere (x :: s)) eqn:E.
    + injection H as ->. apply matchHere_Some in E as [Hwf Hs].
      exists []. split; [done|]. split; [done|]. intros [|??] [|??]; done.
    + destruct (IH H) as (pre & -> & Hwf & Hleft).
      exists (x :: pre). split; [done|]. split; [done|].
      intros p1 p2 Hp Hne. destruct p1 as [|y p1]; simpl in Hp.
      * subst p2. intros Hs. apply startsMarker_matchHere in Hs.
        change ((x :: pre) ++ ?t) with (x :: pre ++ t) in Hs.
        rewrite E in Hs. by destruct Hs.
      * injection Hp as -> ->. by apply (Hleft p1 p2).
Qed.

Lemma marker_length altText urlText :
  length (marker altText urlText) = (length altText + length urlText + 5)%nat.
Proof.
  unfold marker. rewrite !length_app.
  change (length (lit "![")) with 2%nat. change (length (lit "](")) with 2%nat.
  change (length (lit ")")) with 1%nat. lia.
Qed.

Lemma exec_after_length s m :
  Regex.exec s = Some m → (length (Regex.after m) < length s)%nat.
Proof.
  intros H. apply exec_Some in H as (pre & -> & _ & _).
  rewrite !length_app, marker_length. lia.
Qed.

(** With fuel above the length of the text, repeated [exec] finds the
    markers of the text. *)
Lemma execAll_markers fuel s :
  (length s < fuel)%nat → markers s (execAll fuel s).
Proof.
  revert s. induction fuel as [|fuel IH]; intros s Hf; [lia|].
  cbn [execAll]. destruct (Regex.exec s) as [m|] eqn:E.
  - pose proof (exec_after_length _ _ E) as Hlen.
    apply exec_Some in E as (pre & -> & Hwf & Hleft).
    apply markers_next; [done..|]. apply IH. lia.
  - apply markers_none. intros pre suf -> Hs.
    apply startsMarker_matchHere in Hs as [m Hm].
    assert (Regex.exec (pre ++ suf) ≠ None) as Hne; [|done].
    clear E Hf. induction pre as [|x pre IHp].
    + destruct suf; cbn [app Regex.exec]; by rewrite Hm.
    + change ((x :: pre) ++ suf) with (x :: (pre ++ suf)). cbn [Regex.exec].
      by destruct (Regex.matchHere (x :: pre ++ suf)).
Qed.

(** The markers of a text are determined by the text. *)
Lemma markers_execAll s ms fuel :
  markers s ms → (length s < fuel)%nat → execAll fuel s = ms.
Proof.
  intros H. revert fuel. induction H as [s Hnone | pre a u rest ms Hwf Hleft Hms IH];
    intros fuel Hf.
  - destruct fuel as [|fuel]; [done|]. cbn [execAll]. by rewrite exec_None.
  - destruct fuel as [|fuel]; [lia|]. cbn [execAll].
    rewrite exec_skip by done. rewrite exec_marker by done.
    cbn [Regex.group1 Regex.group2 Regex.after].
    f_equal. apply IH. rewrite !length_app, marker_length in Hf. lia.
Qed.

(** ** Facts about effects *)

Lemma mbind_Ok {S A B} (m : M S A) (k : A → M S B) s a s' :
  m s = (Ok a, s') → (m ≫= k) s = k a s'.
Proof. intros H. unfold mbind, M_bind, bind. by rewrite H. Qed.

(** ** Facts about discovery *)

Section DiscoveryFacts.

Variable toLowerCase : jsstring → jsstring.
Variable blockQuery : jsstring → qresult (jsstring * jsstring).

Local Abbreviation blockRecords' := (blockRecords toLowerCase blockQuery).
Local Abbreviation blockErrors' := (blockErrors blockQuery).

(** The loop over the matches ends, whatever the fuel above the length of
    the text, and pushes the records of the markers in order. *)
Lemma whileExec_records fuel uid createTime content pageTitle rest st :
  (length rest < fuel)%nat →
  whileExec toLowerCase fuel uid createTime content pageTitle rest st
  = (Ok tt,
     BatchState
       (images st ++ recordsOf toLowerCase uid createTime content pageTitle
                       (execAll fuel rest))
       (console st)).
Proof.
  revert rest st. induction fuel as [|fuel IH]; intros rest st Hf; [lia|].
  cbn [whileExec execAll]. destruct (Regex.exec rest) as [m|] eqn:E.
  - pose proof (exec_after_length _ _ E) as Hlen.
    apply exec_Some in E as (pre & _ & (_ & Hne & _) & _).
    destruct m as [g1 g2 rest']. cbn [Regex.group1 Regex.group2 Regex.after] in *.
    assert (truthy g2 = true) as -> by (by destruct g2).
    unfold recordsOf. unfold mbind, M_bind, bind.
    destruct (includes (trim g2) (lit "mmbiz.qpic.cn")) eqn:Ed; cbn [negb].
    + rewrite filter_cons_False by (unfold denylisted; cbn [snd]; congruence).
      unfold mret, M_ret, ret. rewrite IH by lia. done.
    + rewrite filter_cons_True by (unfold denylisted; cbn [snd]; congruence).
      unfold push, modify.
      rewrite IH by lia. cbn [images console fmap list_fmap].
      rewrite <- app_assoc. done.
  - unfold recordsOf. rewrite filter_nil. cbn [fmap list_fmap].
    rewrite app_nil_r. by destruct st.
Qed.

Lemma processBlock_effect entry st :
  processBlock toLowerCase blockQuery entry st
  = (Ok tt,
     BatchState (images st ++ blockRecords' entry) (console st ++ blockErrors' entry)).
Proof.
  destruct entry as [uid createTime]. unfold processBlock, blockRecords, blockErrors.
  unfold tryCatch, mbind, M_bind, bind. cbn [fst snd].
  destruct (blockQuery uid) as [rows|e]; cbn [query].
  - unfold ret. destruct rows as [|[content pageTitle] rows].
    + unfold mret, M_ret, ret. rewrite !app_nil_r. by destruct st.
    + rewrite whileExec_records by lia. by rewrite app_nil_r.
  - unfold throw, consoleError, modify. by rewrite app_nil_r.
Qed.

Lemma forOf_processBlock batch st :
  forOf batch (processBlock toLowerCase blockQuery) st
  = (Ok tt,
     BatchState (images st ++ concat (blockRecords' <$> batch))
                (console st ++ concat (blockErrors' <$> batch))).
Proof.
  revert st. induction batch as [|entry batch IH]; intros st.
  - simpl. unfold ret. rewrite !app_nil_r. by destruct st.
  - cbn [forOf]. unfold mbind, M_bind, bind. rewrite processBlock_effect.
    rewrite IH. cbn [images console fmap list_fmap concat].
    by rewrite <- !app_assoc.
Qed.

(** [processImageBatch] always returns: the records of the blocks of the
    batch, block after block. *)
Lemma processImageBatch_records batch :
  processImageBatch toLowerCase blockQuery batch
  = Ok (concat (blockRecords' <$> batch)).
Proof. unfold processImageBatch. by rewrite forOf_processBlock. Qed.

(** C1. For a block whose text holds, from left to right, the well-formed
    markers [ms], the extraction of [processImageBatch] returns one
    record for each marker whose trimmed URL does not contain
    [mmbiz.qpic.cn], in the order of the markers and without merging
    repeated URLs; the record has the trimmed URL of its marker as [url]
    and the alt text of its marker, or [Image] when that is empty, as
    [alt]; the other markers give no record.  So [k] markers off the
    denylisted domain give exactly [k] records. *)
Theorem extraction_one_record_per_marker uid createTime content pageTitle more ms :
  blockQuery uid = Rows ((content, pageTitle) :: more) →
  markers content ms →
  ∃ records,
    processImageBatch toLowerCase blockQuery [(uid, createTime)] = Ok records ∧
    (λ r, (alt r, url r)) <$> records
    = (λ m, (orElse m.1 (lit "Image"), trim m.2))
        <$> filter (λ m, includes (trim m.2) (lit "mmbiz.qpic.cn") = false) ms ∧
    (Forall (λ m, includes (trim m.2) (lit "mmbiz.qpic.cn") = false) ms →
     length records = length ms).
Proof.
  intros Hq Hms. eexists. split; [apply processImageBatch_records|].
  cbn [fmap list_fmap concat]. rewrite app_nil_r.
  unfold blockRecords. cbn [fst snd]. rewrite Hq.
  rewrite (markers_execAll _ _ _ Hms) by lia.
  unfold recordsOf. split.
  - rewrite <- list_fmap_compose. done.
  - intros Hall. rewrite length_fmap. f_equal.
    clear Hms. induction Hall as [|m ms Hm Hall IH]; [done|].
    rewrite filter_cons. unfold denylisted at 1.
    rewrite decide_True by done. by f_equal.
Qed.

(** C6. Whatever blocks of a batch have a failing query,
    [processImageBatch] returns normally, and its result is, in batch
    order, what the blocks contribute one after the other: a block whose
    query raises contributes nothing, as does a block the query finds no
    row for, and a block whose query is answered contributes the records of
    the markers of its text, all of them: for the one reading [ms] of the
    markers of the text, the records [recordsOf] makes of [ms] with the
    identifier and time of the block. *)
Theorem batch_survives_failed_queries batch :
  ∃ per : list (list image),
    processImageBatch toLowerCase blockQuery batch = Ok (concat per) ∧
    Forall2
      (λ entry records,
         match blockQuery entry.1 with
         | Raises _ => records = []
         | Rows [] => records = []
         | Rows ((content, pageTitle) :: _) =>
             ∃ ms, markers content ms ∧
                   (∀ ms', markers content ms' → ms' = ms) ∧
                   records
                   = recordsOf toLowerCase entry.1 entry.2 content pageTitle ms
         end)
      batch per.
Proof.
  exists (blockRecords' <$> batch). split; [apply processImageBatch_records|].
  apply Forall2_fmap_r, Forall_Forall2_diag, Forall_forall. intros entry _.
  unfold blockRecords, compose.
  destruct (blockQuery entry.1) as [[|[content pageTitle] rows]|e];
    [reflexivity| |reflexivity].
  exists (execAll (S (length content)) content).
  split; [apply execAll_markers; lia|]. split; [|done].
  intros ms' Hms'. symmetry. apply markers_execAll; [done | lia].
Qed.

(** The [url] of a record is always trimmed. *)
Lemma record_url_trimmed batch records r :
  processImageBatch toLowerCase blockQuery batch = Ok records →
  r ∈ records → trim (url r) = url r.
Proof.
  rewrite processImageBatch_records. intros [= <-] Hr.
  apply list_elem_of_In, in_concat in Hr as (recs & Hrecs & Hr).
  apply list_elem_of_In in Hrecs, Hr.
  apply list_elem_of_fmap in Hrecs as (entry & -> & _).
  unfold blockRecords in Hr.
  destruct (blockQuery entry.1) as [[|[content pageTitle] rows]|e];
    try by apply elem_of_nil in Hr.
  unfold recordsOf in Hr. apply list_elem_of_fmap in Hr as (m & -> & _).
  cbn [recordOf url]. apply trim_idempotent.
Qed.

End DiscoveryFacts.

(** ** Facts about sorting *)

Section SortFacts.

Context {A : Type} (comparefn : A → A → Z).

Lemma insertBy_perm x l : insertBy comparefn x l ≡ₚ x :: l.
Proof.
  induction l as [|y l IH]; simpl; [done|].
  destruct (comparefn x y <=? 0); [done|].
  rewrite IH. apply perm_swap.
Qed.

Lemma sortBy_perm l : sortBy comparefn l ≡ₚ l.
Proof.
  induction l as [|x l IH]; simpl; [done|].
  rewrite insertBy_perm. by f_equiv.
Qed.

(** [R x y]: the order allows [x] before [y] *)
Variable R : A → A → Prop.
Hypothesis R_before : ∀ x y, comparefn x y ≤ 0 → R x y.
Hypothesis R_after : ∀ x y, 0 < comparefn x y → R y x.
Hypothesis R_trans : ∀ x y z, R x y → R y z → R x z.

Lemma insertBy_sorted x l :
  StronglySorted R l → StronglySorted R (insertBy comparefn x l).
Proof.
  induction l as [|y l IH]; intros Hs; simpl.
  - apply StronglySorted_cons. split; [constructor | constructor].
  - apply StronglySorted_cons in Hs as [Hy Hs].
    destruct (comparefn x y <=? 0) eqn:E.
    + apply Z.leb_le in E. apply StronglySorted_cons. split.
      * constructor; [by apply R_before|].
        eapply Forall_impl; [exact Hy|]. intros z Hz.
        eapply R_trans; [by apply R_before | done].
      * by apply StronglySorted_cons.
    + apply Z.leb_gt in E. apply StronglySorted_cons. split.
      * rewrite insertBy_perm. constructor; [by apply R_after | done].
      * by apply IH.
Qed.

Lemma sortBy_sorted l : StronglySorted R (sortBy comparefn l).
Proof.
  induction l as [|x l IH]; simpl; [constructor|]. by apply insertBy_sorted.
Qed.

End SortFacts.

Lemma StronglySorted_lookup {A} (R : A → A → Prop) l i j a b :
  StronglySorted R l → (i < j)%nat → l !! i = Some a → l !! j = Some b → R a b.
Proof.
  intros Hs. revert i j. induction Hs as [|x l Hs IH Hx]; intros i j Hij Hi Hj.
  - by rewrite lookup_nil in Hi.
  - destruct j as [|j]; [lia|]. destruct i as [|i]; simpl in *.
    + injection Hi as ->. rewrite Forall_forall in Hx. apply Hx.
      by eapply list_elem_of_lookup_2.
    + apply (IH i j); [lia | done..].
  Qed.

(** The stable part: the elements of a class [P] whose members the
    comparison function never puts after one another keep their order. *)
Lemma insertBy_filter {A} (comparefn : A → A → Z) (P : A → Prop)
    `{∀ x, Decision (P x)} x l :
  (∀ y, P x → P y → comparefn x y ≤ 0) →
  filter P (insertBy comparefn x l) = filter P (x :: l).
Proof.
  intros Hc. induction l as [|y l IH]; simpl; [done|].
  destruct (comparefn x y <=? 0) eqn:E; [done|]. apply Z.leb_gt in E.
  rewrite (filter_cons _ y), IH. rewrite !(filter_cons _ x).
  destruct (decide (P x)) as [Hx|Hx]; [|done].
  rewrite filter_cons. destruct (decide (P y)) as [Hy|Hy]; [|done].
  specialize (Hc y Hx Hy). lia.
Qed.

Lemma sortBy_filter {A} (comparefn : A → A → Z) (P : A → Prop)
    `{∀ x, Decision (P x)} l :
  (∀ x y, P x → P y → comparefn x y ≤ 0) →
  filter P (sortBy comparefn l) = filter P l.
Proof.
  intros Hc. induction l as [|x l IH]; simpl; [done|].
  rewrite insertBy_filter by (intros; by apply Hc).
  rewrite !(filter_cons _ x), IH. done.
Qed.

(** Sorting references by the fields of the objects they point to is
    sorting the objects. *)
Lemma insertBy_fmap {A B} (f : A → B) (comparefn : B → B → Z) x l :
  f <$> insertBy (λ a b, comparefn (f a) (f b)) x l
  = insertBy comparefn (f x) (f <$> l).
Proof.
  induction l as [|y l IH]; [done|].
  cbn [insertBy]. rewrite fmap_cons. cbn [insertBy].
  destruct (comparefn (f x) (f y) <=? 0); [done|].
  by rewrite fmap_cons, IH.
Qed.

Lemma sortBy_fmap {A B} (f : A → B) (comparefn : B → B → Z) l :
  f <$> sortBy (λ a b, comparefn (f a) (f b)) l = sortBy comparefn (f <$> l).
Proof.
  induction l as [|x l IH]; [done|].
  cbn [sortBy]. rewrite insertBy_fmap, IH. by rewrite fmap_cons.
Qed.

(** For a consistent comparison function there is one sorted and stable
    arrangement of a list, whatever the algorithm that finds it: the
    result of [sortBy]. *)
Section SortUnique.

Context {A : Type} (comparefn : A → A → Z).
Hypothesis comparefn_total : ∀ x y, 0 < comparefn x y → comparefn y x ≤ 0.
Hypothesis comparefn_trans :
  ∀ x y z, comparefn x y ≤ 0 → comparefn y z ≤ 0 → comparefn x z ≤ 0.

Lemma comparefn_refl x : comparefn x x ≤ 0.
Proof.
  destruct (decide (comparefn x x ≤ 0)) as [|H]; [done|].
  apply comparefn_total. lia.
Qed.

Lemma tied_refl x : tied comparefn x x.
Proof. split; apply comparefn_refl. Qed.

Lemma sortBy_stable l x :
  filter (tied comparefn x) (sortBy comparefn l) = filter (tied comparefn x) l.
Proof.
  apply sortBy_filter. intros y z [_ Hy] [Hz _]. by eapply comparefn_trans.
Qed.

Lemma sortBy_sorted_le l :
  StronglySorted (λ x y, comparefn x y ≤ 0) (sortBy comparefn l).
Proof. apply sortBy_sorted; [done | exact comparefn_total | exact comparefn_trans]. Qed.

Lemma sorted_head_le a l b :
  StronglySorted (λ x y, comparefn x y ≤ 0) (a :: l) → b ∈ a :: l → comparefn a b ≤ 0.
Proof.
  intros Hs Hb. apply StronglySorted_cons in Hs as [Ha _].
  apply elem_of_cons in Hb as [->|Hb]; [apply comparefn_refl|].
  rewrite Forall_forall in Ha. by apply Ha.
Qed.

Lemma stable_sorted_unique l1 l2 :
  StronglySorted (λ x y, comparefn x y ≤ 0) l1 →
  StronglySorted (λ x y, comparefn x y ≤ 0) l2 →
  (∀ x, filter (tied comparefn x) l1 = filter (tied comparefn x) l2) →
  l1 = l2.
Proof.
  revert l2. induction l1 as [|a l1 IH]; intros l2 H1 H2 Hst.
  - destruct l2 as [|b l2]; [done|]. specialize (Hst b).
    rewrite filter_nil, filter_cons_True in Hst by apply tied_refl. done.
  - destruct l2 as [|b l2].
    { specialize (Hst a).
      rewrite filter_nil, filter_cons_True in Hst by apply tied_refl. done. }
    assert (b ∈ a :: l1) as Hb.
    { assert (b ∈ filter (tied comparefn b) (a :: l1)) as Hin.
      { rewrite Hst, filter_cons_True by apply tied_refl. apply list_elem_of_here. }
      by apply list_elem_of_filter in Hin as [_ ?]. }
    assert (a ∈ b :: l2) as Ha.
    { assert (a ∈ filter (tied comparefn a) (b :: l2)) as Hin.
      { rewrite <- Hst, filter_cons_True by apply tied_refl. apply list_elem_of_here. }
      by apply list_elem_of_filter in Hin as [_ ?]. }
    assert (tied comparefn a b) as Hab.
    { split; by eapply sorted_head_le. }
    pose proof (Hst a) as Hhead.
    rewrite filter_cons_True in Hhead by apply tied_refl.
    rewrite (filter_cons_True _ b) in Hhead by done.
    injection Hhead as <- _. f_equal.
    apply StronglySorted_cons in H1 as [_ H1], H2 as [_ H2].
    apply IH; [done..|]. intros x. specialize (Hst x).
    rewrite !(filter_cons _ a) in Hst. destruct (decide (tied comparefn x a)).
    + by injection Hst.
    + done.
Qed.

Lemma sortBy_unique l l' :
  StronglySorted (λ x y, comparefn x y ≤ 0) l' →
  (∀ x, filter (tied comparefn x) l' = filter (tied comparefn x) l) →
  l' = sortBy comparefn l.
Proof.
  intros Hs Hst. apply stable_sorted_unique; [done | apply sortBy_sorted_le|].
  intros x. by rewrite Hst, sortBy_stable.
Qed.

End SortUnique.

Section SorterFacts.

Variable localeCompare : jsstring → jsstring → Z.

Lemma sortImages_newest images :
  sortImages localeCompare images (lit "newest")
  = sortBy (λ a b,
      match createTime a, createTime b with
      | None, None => 0
      | None, Some _ => 1
      | Some _, None => -1
      | Some ta, Some tb => tb - ta
      end) images.
Proof. reflexivity. Qed.

Lemma sortImages_oldest images :
  sortImages localeCompare images (lit "oldest")
  = sortBy (λ a b,
      match createTime a, createTime b with
      | None, None => 0
      | None, Some _ => 1
      | Some _, None => -1
      | Some ta, Some tb => ta - tb
      end) images.
Proof. reflexivity. Qed.

Lemma sortImages_newest_sorted images :
  StronglySorted newestFirst (sortImages localeCompare images (lit "newest")).
Proof.
  rewrite sortImages_newest. apply sortBy_sorted; unfold newestFirst.
  - intros x y. destruct (createTime x), (createTime y); lia.
  - intros x y. destruct (createTime x), (createTime y); lia.
  - intros x y z. destruct (createTime x), (createTime y), (createTime z); lia.
Qed.

Lemma sortImages_oldest_sorted images :
  StronglySorted oldestFirst (sortImages localeCompare images (lit "oldest")).
Proof.
  rewrite sortImages_oldest. apply sortBy_sorted; unfold oldestFirst.
  - intros x y. destruct (createTime x), (createTime y); lia.
  - intros x y. destruct (createTime x), (createTime y); lia.
  - intros x y z. destruct (createTime x), (createTime y), (createTime z); lia.
Qed.

(** C3. With ['newest'] two records with a time come out with the later
    time first, with ['oldest'] with the earlier time first; in both
    modes no record without time comes before a record with one, and
    the records without time keep the order they had in the input.  The
    list of a record without time, one of time 100 and one of time 50
    comes out as 100, 50, none with ['newest'] and as 50, 100, none with
    ['oldest']. *)
Theorem sortImages_by_time images :
  let newest := sortImages localeCompare images (lit "newest") in
  let oldest := sortImages localeCompare images (lit "oldest") in
  (∀ i j a b ta tb, (i < j)%nat → newest !! i = Some a → newest !! j = Some b →
     createTime a = Some ta → createTime b = Some tb → tb ≤ ta) ∧
  (∀ i j a b ta tb, (i < j)%nat → oldest !! i = Some a → oldest !! j = Some b →
     createTime a = Some ta → createTime b = Some tb → ta ≤ tb) ∧
  (∀ out, out = newest ∨ out = oldest →
     (∀ i j a b, (i < j)%nat → out !! i = Some a → out !! j = Some b →
        createTime a = None → createTime b = None) ∧
     filter (λ r, createTime r = None) out
     = filter (λ r, createTime r = None) images) ∧
  (∀ r0 r1 r2, createTime r0 = None → createTime r1 = Some 100 →
     createTime r2 = Some 50 →
     sortImages localeCompare [r0; r1; r2] (lit "newest") = [r1; r2; r0] ∧
     sortImages localeCompare [r0; r1; r2] (lit "oldest") = [r2; r1; r0]).
Proof.
  intros newest oldest.
  pose proof (sortImages_newest_sorted images) as Hn.
  pose proof (sortImages_oldest_sorted images) as Ho.
  split; [|split; [|split]].
  - intros i j a b ta tb Hij Hi Hj Ha Hb.
    pose proof (StronglySorted_lookup _ _ _ _ _ _ Hn Hij Hi Hj) as H.
    unfold newestFirst in H. by rewrite Ha, Hb in H.
  - intros i j a b ta tb Hij Hi Hj Ha Hb.
    pose proof (StronglySorted_lookup _ _ _ _ _ _ Ho Hij Hi Hj) as H.
    unfold oldestFirst in H. by rewrite Ha, Hb in H.
  - intros out [-> | ->]; split.
    + intros i j a b Hij Hi Hj Ha.
      pose proof (StronglySorted_lookup _ _ _ _ _ _ Hn Hij Hi Hj) as H.
      unfold newestFirst in H. rewrite Ha in H. by destruct (createTime b).
    + unfold newest. rewrite sortImages_newest. apply sortBy_filter.
      by intros x y -> ->.
    + intros i j a b Hij Hi Hj Ha.
      pose proof (StronglySorted_lookup _ _ _ _ _ _ Ho Hij Hi Hj) as H.
      unfold oldestFirst in H. rewrite Ha in H. by destruct (createTime b).
    + unfold oldest. rewrite sortImages_oldest. apply sortBy_filter.
      by intros x y -> ->.
  - intros r0 r1 r2 H0 H1 H2. rewrite sortImages_newest, sortImages_oldest.
    destruct r0, r1, r2. cbn [createTime] in H0, H1, H2. subst. done.
Qed.

(** C8. A mode that is none of ['newest'], ['oldest'], ['page-alpha'] and
    ['page-reverse'] sorts as ['newest'] does. *)
Theorem sortImages_unknown_mode images sortOrder :
  sortOrder ≠ lit "newest" → sortOrder ≠ lit "oldest" →
  sortOrder ≠ lit "page-alpha" → sortOrder ≠ lit "page-reverse" →
  sortImages localeCompare images sortOrder
  = sortImages localeCompare images (lit "newest").
Proof.
  intros H1 H2 H3 H4. rewrite sortImages_newest.
  unfold sortImages, sortCopy. by rewrite !decide_False by done.
Qed.

(** [localeCompare] is a consistent comparison function: the sign of its
    answer turns with its arguments, and it is transitive. *)
Hypothesis localeCompare_sgn :
  ∀ s t, Z.sgn (localeCompare s t) = - Z.sgn (localeCompare t s).
Hypothesis localeCompare_trans :
  ∀ s t u, localeCompare s t ≤ 0 → localeCompare t u ≤ 0 → localeCompare s u ≤ 0.

(** C9. With ['page-alpha'] any two records come out in ascending order
    of [localeCompare] on their page titles, with ['page-reverse'] in
    descending order, for a [localeCompare] that is a consistent
    comparison function.  In both modes the output holds the records of
    the input, each as often as the input does, and the records whose page
    titles [localeCompare] does not tell apart keep the order they had in
    the input. *)
Theorem sortImages_by_page_title images :
  (∀ i j a b, (i < j)%nat →
     sortImages localeCompare images (lit "page-alpha") !! i = Some a →
     sortImages localeCompare images (lit "page-alpha") !! j = Some b →
     localeCompare (pageTitle a) (pageTitle b) ≤ 0) ∧
  (∀ i j a b, (i < j)%nat →
     sortImages localeCompare images (lit "page-reverse") !! i = Some a →
     sortImages localeCompare images (lit "page-reverse") !! j = Some b →
     0 ≤ localeCompare (pageTitle a) (pageTitle b)) ∧
  (∀ out,
     out = sortImages localeCompare images (lit "page-alpha") ∨
     out = sortImages localeCompare images (lit "page-reverse") →
     out ≡ₚ images ∧
     ∀ title, filter (λ r, localeCompare (pageTitle r) title = 0) out
              = filter (λ r, localeCompare (pageTitle r) title = 0) images).
Proof.
  assert (∀ x y title, localeCompare x title = 0 → localeCompare y title = 0 →
            localeCompare x y = 0) as Htied.
  { intros x y title Hx Hy.
    pose proof (localeCompare_sgn y title) as H1.
    pose proof (localeCompare_sgn x title) as H3.
    pose proof (localeCompare_sgn x y) as H2.
    pose proof (localeCompare_trans x title y).
    pose proof (localeCompare_trans y title x). lia. }
  split; [|split].
  - intros i j a b Hij Hi Hj.
    eapply (StronglySorted_lookup
              (λ a b, localeCompare (pageTitle a) (pageTitle b) ≤ 0));
      [|exact Hij|exact Hi|exact Hj].
    change (sortImages localeCompare images (lit "page-alpha"))
      with (sortBy (λ a b, localeCompare (pageTitle a) (pageTitle b)) images).
    apply sortBy_sorted.
    + done.
    + intros x y H. pose proof (localeCompare_sgn (pageTitle x) (pageTitle y)). lia.
    + intros x y z. apply localeCompare_trans.
  - intros i j a b Hij Hi Hj.
    eapply (StronglySorted_lookup
              (λ a b, 0 ≤ localeCompare (pageTitle a) (pageTitle b)));
      [|exact Hij|exact Hi|exact Hj].
    change (sortImages localeCompare images (lit "page-reverse"))
      with (sortBy (λ a b, localeCompare (pageTitle b) (pageTitle a)) images).
    apply sortBy_sorted.
    + intros x y H. pose proof (localeCompare_sgn (pageTitle x) (pageTitle y)). lia.
    + intros x y H. pose proof (localeCompare_sgn (pageTitle x) (pageTitle y)). lia.
    + intros x y z Hxy Hyz.
      pose proof (localeCompare_sgn (pageTitle x) (pageTitle y)).
      pose proof (localeCompare_sgn (pageTitle y) (pageTitle z)).
      pose proof (localeCompare_sgn (pageTitle x) (pageTitle z)).
      pose proof (localeCompare_trans (pageTitle z) (pageTitle y) (pageTitle x)).
      lia.
  - intros out [-> | ->]; (split; [apply sortBy_perm|]); intros title.
    + change (sortImages localeCompare images (lit "page-alpha"))
        with (sortBy (λ a b, localeCompare (pageTitle a) (pageTitle b)) images).
      apply sortBy_filter. intros x y Hx Hy. by rewrite (Htied _ _ _ Hx Hy).
    + change (sortImages localeCompare images (lit "page-reverse"))
        with (sortBy (λ a b, localeCompare (pageTitle b) (pageTitle a)) images).
      apply sortBy_filter. intros x y Hx Hy. by rewrite (Htied _ _ _ Hy Hx).
Qed.

End SorterFacts.

(** ** Facts about sorting an array of the store *)

Section SorterOnStoreFacts.

Variable localeCompare : jsstring → jsstring → Z.

Lemma sortCopy_perm {A} (rd : A → image) l sortOrder :
  sortCopy localeCompare rd l sortOrder ≡ₚ l.
Proof. unfold sortCopy. repeat case_decide; apply sortBy_perm. Qed.

Lemma sortCopy_fmap {A} (rd : A → image) l sortOrder :
  rd <$> sortCopy localeCompare rd l sortOrder
  = sortImages localeCompare (rd <$> l) sortOrder.
Proof.
  unfold sortImages, sortCopy. repeat case_decide.
  - exact (sortBy_fmap rd (λ a b : image,
      match createTime a, createTime b with
      | None, None => 0 | None, Some _ => 1 | Some _, None => -1
      | Some ta, Some tb => tb - ta end) l).
  - exact (sortBy_fmap rd (λ a b : image,
      match createTime a, createTime b with
      | None, None => 0 | None, Some _ => 1 | Some _, None => -1
      | Some ta, Some tb => ta - tb end) l).
  - exact (sortBy_fmap rd (λ a b : image,
      localeCompare (pageTitle a) (pageTitle b)) l).
  - exact (sortBy_fmap rd (λ a b : image,
      localeCompare (pageTitle b) (pageTitle a)) l).
  - exact (sortBy_fmap rd (λ a b : image,
      match createTime a, createTime b with
      | None, None => 0 | None, Some _ => 1 | Some _, None => -1
      | Some ta, Some tb => tb - ta end) l).
Qed.

Lemma freshLoc_fresh st : arrays st !! freshLoc st = None.
Proof.
  apply not_elem_of_dom. unfold freshLoc.
  pose proof (is_fresh (dom (arrays st) ∪ dom (objects st))) as H.
  set_solver.
Qed.

(** C4. [sortImages] leaves the list of images it is given as it was:
    after the call the input array holds the same references in the same
    order, no object has changed, and the result is another array, new in
    the store, that holds the references of the input in the sorted order.
    No other array changes either. *)
Theorem sortImages_leaves_input st images elems sortOrder :
  arrays st !! images = Some elems →
  Forall (λ o, is_Some (objects st !! o)) elems →
  ∃ sorted st',
    sortImagesRef localeCompare images sortOrder st = (Ok sorted, st') ∧
    sorted ≠ images ∧
    arrays st !! sorted = None ∧
    arrays st' !! images = Some elems ∧
    (∀ a, a ≠ sorted → arrays st' !! a = arrays st !! a) ∧
    objects st' = objects st ∧
    ∃ out,
      arrays st' !! sorted = Some out ∧
      out ≡ₚ elems ∧
      (λ o, objects st !!! o) <$> out
      = sortImages localeCompare ((λ o, objects st !!! o) <$> elems) sortOrder.
Proof.
  intros Harr _. pose proof (freshLoc_fresh st) as Hfresh.
  assert (freshLoc st ≠ images) as Hne by congruence.
  exists (freshLoc st). eexists. split.
  - unfold sortImagesRef, mbind, M_bind, bind, readArray, newArray, gets,
      writeArray, modify, mret, M_ret, ret.
    rewrite Harr. cbn [arrays objects]. rewrite lookup_insert_eq. reflexivity.
  - cbn [arrays objects]. split; [done|]. split; [done|]. split.
    { rewrite !lookup_insert_ne by done. done. }
    split.
    { intros a Ha. rewrite !lookup_insert_ne by done. done. }
    split; [done|]. eexists. split; [apply lookup_insert_eq|].
    split; [apply sortCopy_perm | apply sortCopy_fmap].
Qed.

End SorterOnStoreFacts.



(** ** Facts about enrichment *)

Section EnricherFacts.

Variable toLowerCase : jsstring → jsstring.
Variable parentQuery : jsstring → qresult jsstring.
Variable childrenQuery : jsstring → qresult jsstring.
Variable siblingsQuery : jsstring → qresult (jsstring * Z).

Local Abbreviation getBlockContext' :=
  (getBlockContext parentQuery childrenQuery siblingsQuery).
Local Abbreviation callbackResume' :=
  (callbackResume toLowerCase parentQuery childrenQuery siblingsQuery).
Local Abbreviation promiseAllMap' :=
  (promiseAllMap toLowerCase parentQuery childrenQuery siblingsQuery).
Local Abbreviation enhanceLoop' :=
  (enhanceLoop toLowerCase parentQuery childrenQuery siblingsQuery).
Local Abbreviation enhanceImagesWithContext' :=
  (enhanceImagesWithContext toLowerCase parentQuery childrenQuery siblingsQuery).
Local Abbreviation contextOf' := (contextOf parentQuery childrenQuery siblingsQuery).
Local Abbreviation enrich' :=
  (enrich toLowerCase parentQuery childrenQuery siblingsQuery).
Local Abbreviation enrichedOn' :=
  (enrichedOn toLowerCase parentQuery childrenQuery siblingsQuery).
Local Abbreviation consistent' :=
  (consistent toLowerCase parentQuery childrenQuery siblingsQuery).

Lemma getBlockContext_effect uid st :
  ∃ st',
    getBlockContext' uid st = (Ok (contextOf' uid), st') ∧
    arrays st' = arrays st ∧
    objects st' = objects st ∧
    ∃ ql, queryLog st' = queryLog st ++ ql ∧ Forall (λ e, e.2 = uid) ql.
Proof.
  unfold getBlockContext, contextOf, tryCatch, q, consoleErrorS, query,
    mbind, M_bind, bind, modify, mret, M_ret, ret, throw.
  destruct (parentQuery uid); [destruct (childrenQuery uid);
    [destruct (siblingsQuery uid)|]|];
    (eexists; split; [reflexivity|]; cbn [arrays objects queryLog];
     split; [done|]; split; [done|]; eexists;
     split; [rewrite <- ?app_assoc; reflexivity | repeat constructor]).
Qed.

Lemma assign_effect o set st img :
  objects st !! o = Some img →
  assign o set st
  = (Ok (), Store (arrays st) (<[o := set img]> (objects st)) (consoleLog st)
                  (queryLog st) (progressLog st)).
Proof.
  intros H. unfold assign, readObject, writeObject, modify, mbind, M_bind, bind.
  by rewrite H.
Qed.

Lemma callbackResume_effect o img st :
  objects st !! o = Some img →
  ∃ st',
    callbackResume' (o, uid img) st = (Ok (), st') ∧
    arrays st' = arrays st ∧
    objects st' = <[o := enrich' img]> (objects st) ∧
    ∃ ql, queryLog st' = queryLog st ++ ql ∧ Forall (λ e, e.2 = uid img) ql.
Proof.
  intros Ho.
  destruct (getBlockContext_effect (uid img) st) as (st1 & E1 & Ha & Hobj & ql & Hq & Hql).
  unfold callbackResume. unfold mbind at 1, M_bind at 1, bind at 1. rewrite E1.
  assert (objects st1 !! o = Some img) as Ho1 by (by rewrite Hobj).
  unfold mbind at 1, M_bind at 1, bind at 1. rewrite (assign_effect _ _ _ _ Ho1).
  unfold mbind at 1, M_bind at 1, bind at 1.
  erewrite assign_effect by (cbn [objects]; apply lookup_insert_eq).
  unfold mbind at 1, M_bind at 1, bind at 1.
  erewrite assign_effect by (cbn [objects]; apply lookup_insert_eq).
  unfold mbind at 1, M_bind at 1, bind at 1. unfold readObject at 1.
  cbn [objects arrays consoleLog queryLog progressLog]. rewrite lookup_insert_eq.
  unfold mbind at 1, M_bind at 1, bind at 1.
  erewrite assign_effect by (cbn [objects]; apply lookup_insert_eq).
  erewrite assign_effect by (cbn [objects]; apply lookup_insert_eq).
  eexists. split; [reflexivity|].
  cbn [objects arrays consoleLog queryLog progressLog].
  split; [done|]. split.
  - rewrite !insert_insert_eq, Hobj. done.
  - by exists ql.
Qed.

Lemma consistent_start st0 elems : consistent' st0 elems [] st0.
Proof.
  split; [done| |].
  - intros o. unfold enrichedOn. destruct (objects st0 !! o) as [img0|]; [|done].
    cbn [fmap option_fmap option_map]. rewrite decide_False; [done|].
    intros [H _]. by apply elem_of_nil in H.
  - exists []. by rewrite app_nil_r.
Qed.

Lemma consistent_same_elements st0 elems D D' st :
  (∀ o img0, objects st0 !! o = Some img0 → contextLoaded img0 = false →
             (o ∈ D ↔ o ∈ D')) →
  consistent' st0 elems D st → consistent' st0 elems D' st.
Proof.
  intros HD [Ha Ho Hq]. split; [done| |done].
  intros o. rewrite Ho. destruct (objects st0 !! o) as [img0|] eqn:E; [|done].
  cbn [fmap option_fmap option_map]. f_equal. unfold enrichedOn.
  destruct (contextLoaded img0) eqn:El.
  - rewrite !decide_False; [done | intros [_ ?]; done | intros [_ ?]; done].
  - specialize (HD o img0 E El). apply decide_ext. tauto.
Qed.

Lemma consistent_progress st0 elems D st pl :
  consistent' st0 elems D st →
  consistent' st0 elems D
    (Store (arrays st) (objects st) (consoleLog st) (queryLog st) pl).
Proof. intros [Ha Ho Hq]. by split. Qed.

Lemma callbackStart_all st0 elems D st batch :
  consistent' st0 elems D st →
  Forall (λ o, is_Some (objects st0 !! o)) batch →
  ∃ started,
    mapM callbackStart batch st = (Ok started, st) ∧
    omap id started = pendingOf st0 D batch.
Proof.
  intros Hc Hb. induction Hb as [|o batch [img0 Ho] Hb (started & E & Hs)].
  - by exists [].
  - pose proof (con_objects _ _ _ _ _ _ _ _ Hc o) as Hcur. rewrite Ho in Hcur.
    cbn [fmap option_fmap option_map] in Hcur.
    cbn [mapM]. unfold mbind at 1, M_bind at 1, bind at 1.
    unfold callbackStart at 1, mbind at 1, M_bind at 1, bind at 1, readObject at 1.
    rewrite Hcur. unfold pendingOf. cbn [omap list_omap]. rewrite Ho.
    fold (pendingOf st0 D batch). unfold enrichedOn.
    destruct (decide (o ∈ D ∧ contextLoaded img0 = false)) as [[HD Hl]|Hn].
    + cbn [enrich contextLoaded negb]. unfold mret at 1, M_ret at 1, ret at 1.
      unfold mbind at 1, M_bind at 1, bind at 1. rewrite E.
      rewrite decide_False by (intros [? _]; done).
      eexists. split; [reflexivity|]. done.
    + destruct (contextLoaded img0) eqn:El; cbn [negb].
      * unfold mret at 1, M_ret at 1, ret at 1.
        unfold mbind at 1, M_bind at 1, bind at 1. rewrite E.
        rewrite decide_False by (intros [_ ?]; done).
        eexists. split; [reflexivity|]. done.
      * unfold mret at 1, M_ret at 1, ret at 1.
        unfold mbind at 1, M_bind at 1, bind at 1. rewrite E.
        rewrite decide_True by (split; [intros ?; apply Hn|]; done).
        eexists. split; [reflexivity|]. cbn [omap list_omap id]. by f_equal.
Qed.

Lemma callbackResume_consistent st0 elems D st o img0 :
  consistent' st0 elems D st →
  o ∈ elems → objects st0 !! o = Some img0 → contextLoaded img0 = false →
  ∃ st',
    callbackResume' (o, uid img0) st = (Ok (), st') ∧
    consistent' st0 elems (o :: D) st'.
Proof.
  intros [Ha Hobj (ql & Hq & Hql)] Hel Ho Hl.
  pose proof (Hobj o) as Hcur. rewrite Ho in Hcur.
    cbn [fmap option_fmap option_map] in Hcur.
  assert (uid (enrichedOn' D o img0) = uid img0) as Huid.
  { unfold enrichedOn. by destruct (decide _). }
  assert (enrich' (enrichedOn' D o img0) = enrich' img0) as Hen.
  { unfold enrichedOn. by destruct (decide _). }
  destruct (callbackResume_effect o _ st Hcur) as (st' & E & Ha' & Hobj' & ql' & Hq' & Hql').
  rewrite Huid in E, Hql'. rewrite Hen in Hobj'.
  exists st'. split; [done|]. split.
  - congruence.
  - intros o'. rewrite Hobj'. destruct (decide (o' = o)) as [->|Hne].
    + rewrite lookup_insert_eq, Ho. cbn [fmap option_fmap option_map].
      f_equal. unfold enrichedOn.
      rewrite decide_True; [done|]. split; [apply list_elem_of_here | done].
    + rewrite lookup_insert_ne by done. rewrite Hobj.
      destruct (objects st0 !! o') as [img|]; [|done].
      cbn [fmap option_fmap option_map]. f_equal.
      unfold enrichedOn. apply decide_ext. rewrite elem_of_cons. tauto.
  - exists (ql ++ ql'). split; [rewrite Hq', Hq; by rewrite app_assoc|].
    apply Forall_app. split; [done|].
    eapply Forall_impl; [exact Hql'|]. intros e He. by exists o, img0.
Qed.

Lemma elem_of_pendingOf st0 D batch o u :
  (o, u) ∈ pendingOf st0 D batch ↔
  o ∈ batch ∧ (o ∉ D) ∧
  ∃ img0, objects st0 !! o = Some img0 ∧ contextLoaded img0 = false ∧ u = uid img0.
Proof.
  unfold pendingOf. rewrite list_elem_of_omap. split.
  - intros (o' & Hin & Hf). destruct (objects st0 !! o') as [img0|] eqn:E; [|done].
    destruct (decide _) as [[HD Hl]|]; [|done]. injection Hf as ? ?. subst.
    split; [done|]. split; [done|]. by exists img0.
  - intros (Hin & HD & img0 & E & Hl & ->). exists o. split; [done|].
    rewrite E. by rewrite decide_True.
Qed.

Lemma forOf_callbackResume st0 elems pend D st :
  Forall (λ p, ∃ img0, p.1 ∈ elems ∧ objects st0 !! p.1 = Some img0 ∧
                       contextLoaded img0 = false ∧ p.2 = uid img0) pend →
  consistent' st0 elems D st →
  ∃ st',
    forOf pend callbackResume' st = (Ok (), st') ∧
    consistent' st0 elems (pend.*1 ++ D) st'.
Proof.
  intros Hp. revert D st.
  induction Hp as [|[o u] pend (img0 & Hel & Ho & Hl & Hu) Hp IH]; intros D st Hc.
  - by exists st.
  - cbn [fst snd] in *. subst u.
    destruct (callbackResume_consistent _ _ _ _ _ _ Hc Hel Ho Hl) as (st1 & E1 & Hc1).
    destruct (IH _ _ Hc1) as (st2 & E2 & Hc2).
    exists st2. split.
    + cbn [forOf]. unfold mbind, M_bind, bind. by rewrite E1.
    + eapply consistent_same_elements; [|exact Hc2].
      intros o' _ _ _. rewrite fmap_cons. cbn [fst].
      rewrite !elem_of_app, !elem_of_cons. tauto.
Qed.

Lemma promiseAllMap_consistent st0 elems D batch st :
  consistent' st0 elems D st →
  batch ⊆ elems →
  Forall (λ o, is_Some (objects st0 !! o)) batch →
  ∃ st',
    promiseAllMap' batch st = (Ok (), st') ∧
    consistent' st0 elems (batch ++ D) st'.
Proof.
  intros Hc Hsub Hb.
  destruct (callbackStart_all _ _ _ _ _ Hc Hb) as (started & E & Hs).
  assert (Forall (λ p, ∃ img0, p.1 ∈ elems ∧ objects st0 !! p.1 = Some img0 ∧
                               contextLoaded img0 = false ∧ p.2 = uid img0)
                 (pendingOf st0 D batch)) as Hp.
  { apply Forall_forall. intros [o u] Hin.
    apply elem_of_pendingOf in Hin as (Hin & _ & img0 & Ho & Hl & ->).
    exists img0. cbn [fst snd]. split; [by apply Hsub | done]. }
  destruct (forOf_callbackResume _ _ _ _ _ Hp Hc) as (st' & E' & Hc').
  exists st'. split.
  - unfold promiseAllMap. rewrite (mbind_Ok _ _ _ _ _ E), Hs. exact E'.
  - eapply consistent_same_elements; [|exact Hc'].
    intros o img0 Ho Hl. rewrite !elem_of_app. split.
    + intros [Hin|HD]; [|by right].
      apply list_elem_of_fmap in Hin as ([o' u] & -> & Hin).
      apply elem_of_pendingOf in Hin as (Hin & _). by left.
    + intros [Hin|HD]; [|by right].
      destruct (decide (o ∈ D)) as [HD|HD]; [by right|]. left.
      apply list_elem_of_fmap. exists (o, uid img0). split; [done|].
      apply elem_of_pendingOf. split; [done|]. split; [done|]. by exists img0.
Qed.

Lemma take_slice {A} (l : list A) i k :
  take i l ++ slice i (Nat.min (i + k) (length l)) l = take (i + k) l.
Proof.
  unfold slice. rewrite <- take_take_drop. f_equal.
  destruct (decide (i + k ≤ length l)%nat) as [Hle|Hgt].
  - f_equal. lia.
  - rewrite !take_ge; [done | rewrite length_drop; lia | rewrite length_drop; lia].
Qed.

Lemma enhanceLoop_consistent st0 images elems onProgress fuel i st :
  arrays st0 !! images = Some elems →
  Forall (λ o, is_Some (objects st0 !! o)) elems →
  consistent' st0 elems (take i elems) st →
  (length elems ≤ i + fuel)%nat →
  ∃ st',
    enhanceLoop' fuel images onProgress i st = (Ok (), st') ∧
    consistent' st0 elems elems st'.
Proof.
  intros Harr Hobj. revert i st.
  induction fuel as [|fuel IH]; intros i st Hc Hf.
  - exists st. split.
    + cbn [enhanceLoop]. unfold mbind, M_bind, bind, readArray.
      rewrite (con_arrays _ _ _ _ _ _ _ _ Hc), Harr.
      assert ((i <? length elems)%nat = false) as -> by (apply Nat.ltb_ge; lia).
      done.
    + rewrite take_ge in Hc by lia. done.
  - cbn [enhanceLoop]. unfold mbind at 1, M_bind at 1, bind at 1, readArray at 1.
    rewrite (con_arrays _ _ _ _ _ _ _ _ Hc), Harr.
    destruct (i <? length elems)%nat eqn:Ei.
    2: { apply Nat.ltb_ge in Ei. exists st. split; [done|].
         rewrite take_ge in Hc by lia. done. }
    set (batch := slice i (Nat.min (i + batchSize) (length elems)) elems).
    assert (batch ⊆ elems) as Hsub.
    { unfold batch, slice. intros o Ho.
      apply subseteq_take in Ho. by apply subseteq_drop in Ho. }
    assert (Forall (λ o, is_Some (objects st0 !! o)) batch) as Hb.
    { rewrite Forall_forall in Hobj. apply Forall_forall. intros o Ho.
      apply Hobj. by apply Hsub. }
    destruct (promiseAllMap_consistent _ _ _ _ _ Hc Hsub Hb) as (st1 & E1 & Hc1).
    assert (consistent' st0 elems (take (i + batchSize) elems) st1) as Hc1'.
    { eapply consistent_same_elements; [|exact Hc1].
      intros o _ _ _. rewrite <- take_slice. fold batch.
      rewrite !elem_of_app. tauto. }
    unfold mbind at 1, M_bind at 1, bind at 1. rewrite E1.
    destruct onProgress.
    + unfold mbind at 1, M_bind at 1, bind at 1.
      unfold reportProgress at 1, modify at 1.
      apply IH; [by apply consistent_progress | unfold batchSize; lia].
    + unfold mbind at 1, M_bind at 1, bind at 1.
      unfold mret at 1, M_ret at 1, ret at 1.
      apply IH; [done | unfold batchSize; lia].
Qed.

(** [enhanceImagesWithContext] returns the array it was given, with the
    store in the state where every callback has run to its end. *)
Lemma enhanceImagesWithContext_consistent st images elems onProgress :
  arrays st !! images = Some elems →
  Forall (λ o, is_Some (objects st !! o)) elems →
  ∃ st',
    enhanceImagesWithContext' images onProgress st = (Ok images, st') ∧
    consistent' st elems elems st'.
Proof.
  intros Harr Hobj.
  destruct (enhanceLoop_consistent st images elems onProgress (length elems) 0 st
              Harr Hobj) as (st' & E & Hc).
  { rewrite take_0. apply consistent_start. }
  { lia. }
  exists st'. split; [|done].
  unfold enhanceImagesWithContext, mbind, M_bind, bind, readArray.
  rewrite Harr, E. done.
Qed.

(** In the state after a run every element of the array has its flag on. *)
Lemma consistent_all_enriched st0 elems st o :
  consistent' st0 elems elems st →
  o ∈ elems → is_Some (objects st0 !! o) →
  ∃ img, objects st !! o = Some img ∧ contextLoaded img = true.
Proof.
  intros [_ Ho _] Hin [img0 Himg0]. rewrite Ho, Himg0.
  cbn [fmap option_fmap option_map]. eexists. split; [done|].
  unfold enrichedOn. destruct (decide _) as [|Hn]; [done|].
  destruct (contextLoaded img0) eqn:E; [done|]. exfalso. by apply Hn.
Qed.

(** A run on records that are all enriched changes no object and sends no
    query. *)
Lemma consistent_nothing_to_do st0 elems st :
  consistent' st0 elems elems st →
  (∀ o img, o ∈ elems → objects st0 !! o = Some img → contextLoaded img = true) →
  objects st = objects st0 ∧ queryLog st = queryLog st0.
Proof.
  intros [_ Ho (sent & Hq & Hsent)] Hall. split.
  - apply map_eq. intros o. rewrite Ho.
    destruct (objects st0 !! o) as [img|] eqn:Himg; [|done].
    cbn [fmap option_fmap option_map]. f_equal.
    unfold enrichedOn. rewrite decide_False; [done|]. intros [Hin Hl].
    rewrite (Hall o img Hin Himg) in Hl. done.
  - rewrite Hq. destruct sent as [|e sent]; [by rewrite app_nil_r|].
    apply Forall_cons in Hsent as [(o & img & Hin & Himg & Hl & _) _].
    rewrite (Hall o img Hin Himg) in Hl. done.
Qed.

(** Enriching twice is enriching once: a second run of
    [enhanceImagesWithContext] on the same array changes no object and
    sends no query. *)
Lemma enrichment_twice st images elems onProgress onProgress' :
  arrays st !! images = Some elems →
  Forall (λ o, is_Some (objects st !! o)) elems →
  ∃ st1 st2,
    enhanceImagesWithContext' images onProgress st = (Ok images, st1) ∧
    enhanceImagesWithContext' images onProgress' st1 = (Ok images, st2) ∧
    objects st2 = objects st1 ∧ queryLog st2 = queryLog st1.
Proof.
  intros Harr Hobj.
  destruct (enhanceImagesWithContext_consistent st images elems onProgress Harr Hobj)
    as (st1 & E1 & Hc1).
  assert (arrays st1 !! images = Some elems) as Harr1.
  { by rewrite (con_arrays _ _ _ _ _ _ _ _ Hc1). }
  assert (∀ o, o ∈ elems → ∃ img, objects st1 !! o = Some img ∧ contextLoaded img = true)
    as Hall.
  { intros o Hin. eapply consistent_all_enriched; [exact Hc1 | done|].
    rewrite Forall_forall in Hobj. by apply Hobj. }
  assert (Forall (λ o, is_Some (objects st1 !! o)) elems) as Hobj1.
  { apply Forall_forall. intros o Hin. destruct (Hall o Hin) as (img & -> & _).
    by eexists. }
  destruct (enhanceImagesWithContext_consistent st1 images elems onProgress' Harr1 Hobj1)
    as (st2 & E2 & Hc2).
  exists st1, st2. split; [done|]. split; [done|].
  apply (consistent_nothing_to_do _ _ _ Hc2).
  intros o img Hin Himg. destruct (Hall o Hin) as (img' & Himg' & Hl). congruence.
Qed.

(** C7. A record whose [contextLoaded] flag is on when
    [enhanceImagesWithContext] starts is the same record when it ends,
    with the same [parentContent], [childrenContent], [siblingsContent]
    and [searchableContent]; the callback called on such a record stops
    at its test and leaves the whole store, the log of queries with it,
    as it is; every context query of the run is for the block of an
    element whose flag was off.  So a run on records that are all
    enriched changes no object and sends no query. *)
Theorem enrichment_skips_enriched st images elems onProgress :
  arrays st !! images = Some elems →
  Forall (λ o, is_Some (objects st !! o)) elems →
  ∃ st',
    enhanceImagesWithContext' images onProgress st = (Ok images, st') ∧
    (∀ o img, objects st !! o = Some img → contextLoaded img = true →
       objects st' !! o = Some img ∧
       ∀ s, objects s !! o = Some img → callbackStart o s = (Ok None, s)) ∧
    (∃ sent, queryLog st' = queryLog st ++ sent ∧
       ∀ e, e ∈ sent →
         ∃ o img, o ∈ elems ∧ objects st !! o = Some img ∧
                  contextLoaded img = false ∧ uid img = e.2) ∧
    ((∀ o img, o ∈ elems → objects st !! o = Some img → contextLoaded img = true) →
     objects st' = objects st ∧ queryLog st' = queryLog st).
Proof.
  intros Harr Hobj.
  destruct (enhanceImagesWithContext_consistent st images elems onProgress Harr Hobj)
    as (st' & E & Hc).
  pose proof Hc as [Ha Ho (sent & Hq & Hsent)].
  exists st'. split; [done|]. split; [|split].
  - intros o img Himg Hl. split.
    + rewrite Ho, Himg. cbn [fmap option_fmap option_map]. f_equal.
      unfold enrichedOn. rewrite decide_False; [done|]. intros [_ ?]. congruence.
    + intros s Hs. unfold callbackStart, mbind, M_bind, bind, readObject.
      by rewrite Hs, Hl.
  - exists sent. split; [done|]. intros e He.
    rewrite Forall_forall in Hsent. exact (Hsent e He).
  - intros Hall. by apply (consistent_nothing_to_do _ _ _ Hc).
Qed.

(** C10. [enhanceImagesWithContext] changes no array, and of a record only
    [parentContent], [childrenContent], [siblingsContent],
    [searchableContent] and [contextLoaded]: the fields [uid], [url],
    [alt], [createTime], [pageTitle] and [blockContent] of every object
    are after the run what they were before.  A record of the array whose
    flag was off has the flag on after the run, and its
    [searchableContent] is the lowercased text made of its
    [blockContent], [parentContent], [childrenContent], [siblingsContent]
    and [pageTitle], in this order, with one space between two of them;
    when the three context queries for its block are answered, its
    context fields are the answers joined by spaces.  Any other record is
    as it was. *)
Theorem enrichment_changes_context_only st images elems onProgress :
  arrays st !! images = Some elems →
  Forall (λ o, is_Some (objects st !! o)) elems →
  ∃ st',
    enhanceImagesWithContext' images onProgress st = (Ok images, st') ∧
    arrays st' = arrays st ∧
    ∀ o img, objects st !! o = Some img →
      ∃ img',
        objects st' !! o = Some img' ∧
        uid img' = uid img ∧ url img' = url img ∧ alt img' = alt img ∧
        createTime img' = createTime img ∧ pageTitle img' = pageTitle img ∧
        blockContent img' = blockContent img ∧
        (o ∈ elems → contextLoaded img = false →
           contextLoaded img' = true ∧
           searchableContent img'
           = toLowerCase (blockContent img' ++ space ++ parentContent img' ++ space ++
                          childrenContent img' ++ space ++ siblingsContent img' ++
                          space ++ pageTitle img') ∧
           ∀ parentResults childrenResults siblingsResults,
             parentQuery (uid img) = Rows parentResults →
             childrenQuery (uid img) = Rows childrenResults →
             siblingsQuery (uid img) = Rows siblingsResults →
             parentContent img' = join space parentResults ∧
             childrenContent img' = join space childrenResults ∧
             siblingsContent img' = join space (fst <$> siblingsResults)) ∧
        (o ∉ elems ∨ contextLoaded img = true → img' = img).
Proof.
  intros Harr Hobj.
  destruct (enhanceImagesWithContext_consistent st images elems onProgress Harr Hobj)
    as (st' & E & [Ha Ho _]).
  exists st'. split; [done|]. split; [done|].
  intros o img Himg. exists (enrichedOn' elems o img).
  split; [by rewrite Ho, Himg|].
  unfold enrichedOn. destruct (decide (o ∈ elems ∧ contextLoaded img = false))
    as [[Hin Hl]|Hn].
  - cbn [enrich uid url alt createTime pageTitle blockContent parentContent
           childrenContent siblingsContent searchableContent contextLoaded].
    repeat (split; [done|]). split.
    + intros _ _. split; [done|]. split; [done|].
      intros p c s' Hp Hc Hs. unfold contextOf. by rewrite Hp, Hc, Hs.
    + intros [Hout | Hl']; [done | congruence].
  - repeat (split; [done|]). split; [|done].
    intros Hin Hl. exfalso. by apply Hn.
Qed.

End EnricherFacts.

(** ** Facts about the sample engine *)

Lemma codeUnitCompare_sgn s t :
  Z.sgn (codeUnitCompare s t) = - Z.sgn (codeUnitCompare t s).
Proof.
  revert t. induction s as [|x s IH]; intros [|y t]; simpl; try done.
  destruct (N.ltb_spec x y), (N.ltb_spec y x); simpl; try lia.
  apply IH.
Qed.

Lemma codeUnitCompare_trans s t u :
  codeUnitCompare s t ≤ 0 → codeUnitCompare t u ≤ 0 → codeUnitCompare s u ≤ 0.
Proof.
  revert t u. induction s as [|x s IH]; intros [|y t] [|z u]; simpl; try lia.
  destruct (N.ltb_spec x y), (N.ltb_spec y x), (N.ltb_spec y z), (N.ltb_spec z y),
    (N.ltb_spec x z), (N.ltb_spec z x); try lia.
  apply IH.
Qed.

(** ** The scenarios of the specification, run on the model *)

Example scenario_two_markers :
  (λ r, (url r, alt r))
    <$> match processImageBatch asciiLowerCase (scenarioHost scenarioText)
                [(lit "uid1", 5)] with
        | Ok records => records
        | _ => []
        end
  = [(lit "http://x.com/cat.png", lit "cat"); (lit "http://x.com/dog.jpg", lit "Image")].
Proof. vm_compute. reflexivity. Qed.

Example scenario_denylisted_domain :
  processImageBatch asciiLowerCase
    (scenarioHost (lit "![pic](https://mmbiz.qpic.cn/mmbiz_png/x.png)"))
    [(lit "uid1", 5)]
  = Ok [].
Proof. vm_compute. reflexivity. Qed.

Lemma extraction_one_record_per_marker_witness :
  ∃ records,
    processImageBatch asciiLowerCase (scenarioHost scenarioText) [(lit "uid1", 5)]
    = Ok records ∧
    (λ r, (alt r, url r)) <$> records
    = [(lit "cat", lit "http://x.com/cat.png"); (lit "Image", lit "http://x.com/dog.jpg")] ∧
    length records = 2%nat.
Proof.
  assert (markers scenarioText
            [(lit "cat", lit "http://x.com/cat.png"); ([], lit "http://x.com/dog.jpg")])
    as Hms.
  { assert (execAll 100 scenarioText
            = [(lit "cat", lit "http://x.com/cat.png"); ([], lit "http://x.com/dog.jpg")])
      as <- by (vm_compute; reflexivity).
    apply execAll_markers. vm_compute. lia. }
  destruct (extraction_one_record_per_marker asciiLowerCase (scenarioHost scenarioText)
              (lit "uid1") 5 scenarioText (lit "Page") [] _ eq_refl Hms)
    as (records & H1 & H2 & H3).
  exists records. split; [exact H1|]. split.
  - rewrite H2. vm_compute. reflexivity.
  - apply H3. repeat constructor.
Defined.

(** C2. The record of a marker whose URL is made of white space only has
    the empty string as [url]: the test of the URL comes before the URL is
    trimmed. *)
Theorem blank_url_record :
  ∃ r,
    processImageBatch asciiLowerCase (scenarioHost (lit "![a]( )")) [(lit "uid1", 1)]
    = Ok [r] ∧
    url r = [].
Proof. eexists. split; [vm_compute; reflexivity | reflexivity]. Qed.

Lemma sampleStore_objects :
  Forall (λ o, is_Some (objects sampleStore !! o)) [1; 2; 3]%nat.
Proof. repeat constructor; by eexists. Qed.

Lemma sortImages_leaves_input_witness :
  ∃ sorted st',
    sortImagesRef codeUnitCompare 0%nat (lit "newest") sampleStore = (Ok sorted, st') ∧
    sorted ≠ 0%nat ∧
    arrays st' !! 0%nat = Some [1; 2; 3]%nat ∧
    objects st' = objects sampleStore.
Proof.
  destruct (sortImages_leaves_input codeUnitCompare sampleStore 0%nat [1; 2; 3]%nat
              (lit "newest") eq_refl sampleStore_objects)
    as (sorted & st' & E & Hne & _ & Hin & _ & Hobj & _).
  exists sorted, st'. done.
Defined.

Lemma enrichment_skips_enriched_witness :
  ∃ st',
    enhanceImagesWithContext asciiLowerCase (λ _, Rows [lit "Parent"])
      (λ _, Rows [lit "Child 1"; lit "Child 2"]) (λ _, Raises (lit "timeout"))
      0%nat true sampleStore
    = (Ok 0%nat, st') ∧
    objects st' !! 1%nat = Some (sampleImage None (lit "b") true).
Proof.
  destruct (enrichment_skips_enriched asciiLowerCase (λ _, Rows [lit "Parent"])
              (λ _, Rows [lit "Child 1"; lit "Child 2"]) (λ _, Raises (lit "timeout"))
              sampleStore 0%nat [1; 2; 3]%nat true eq_refl sampleStore_objects)
    as (st' & E & H & _).
  exists st'. split; [exact E|].
  apply (H 1%nat (sampleImage None (lit "b") true) eq_refl eq_refl).
Defined.

Lemma enrichment_changes_context_only_witness :
  ∃ st' img',
    enhanceImagesWithContext asciiLowerCase (λ _, Rows [lit "Parent"])
      (λ _, Rows [lit "Child 1"; lit "Child 2"]) (λ _, Rows [(lit "Next", 1)])
      0%nat false sampleStore
    = (Ok 0%nat, st') ∧
    objects st' !! 2%nat = Some img' ∧
    url img' = lit "http://x.com/a.png" ∧
    contextLoaded img' = true ∧
    childrenContent img' = lit "Child 1 Child 2".
Proof.
  destruct (enrichment_changes_context_only asciiLowerCase (λ _, Rows [lit "Parent"])
              (λ _, Rows [lit "Child 1"; lit "Child 2"]) (λ _, Rows [(lit "Next", 1)])
              sampleStore 0%nat [1; 2; 3]%nat false eq_refl sampleStore_objects)
    as (st' & E & _ & H).
  destruct (H 2%nat (sampleImage (Some 100) (lit "a") false) eq_refl)
    as (img' & Himg' & _ & Hurl & _ & _ & _ & _ & Hen & _).
  destruct Hen as (Hl & _ & Hctx).
  { apply list_elem_of_In. simpl. tauto. }
  { reflexivity. }
  destruct (Hctx _ _ _ eq_refl eq_refl eq_refl) as (_ & Hc & _).
  exists st', img'. split; [exact E|]. split; [exact Himg'|].
  split; [exact Hurl|]. split; [exact Hl|]. exact Hc.
Defined.

Lemma sortImages_unknown_mode_witness :
  sortImages codeUnitCompare
    [sampleImage None [] false; sampleImage (Some 100) [] false;
     sampleImage (Some 50) [] false] (lit "random")
  = [sampleImage (Some 100) [] false; sampleImage (Some 50) [] false;
     sampleImage None [] false].
Proof.
  rewrite (sortImages_unknown_mode codeUnitCompare _ (lit "random"));
    [reflexivity | discriminate..].
Defined.

Lemma sortImages_by_page_title_witness :
  let images :=
    [sampleImage None (lit "b") false; sampleImage (Some 7) (lit "a") false;
     sampleImage None (lit "c") false; sampleImage (Some 9) (lit "a") true] in
  ∃ x y,
    sortImages codeUnitCompare images (lit "page-alpha") !! 0%nat = Some x ∧
    sortImages codeUnitCompare images (lit "page-alpha") !! 2%nat = Some y ∧
    pageTitle x = lit "a" ∧ pageTitle y = lit "b" ∧
    codeUnitCompare (pageTitle x) (pageTitle y) ≤ 0 ∧
    sortImages codeUnitCompare images (lit "page-alpha") ≡ₚ images ∧
    filter (λ r, codeUnitCompare (pageTitle r) (lit "a") = 0)
           (sortImages codeUnitCompare images (lit "page-alpha"))
    = [sampleImage (Some 7) (lit "a") false; sampleImage (Some 9) (lit "a") true].
Proof.
  intros images.
  destruct (sortImages_by_page_title codeUnitCompare codeUnitCompare_sgn
              codeUnitCompare_trans images) as (Halpha & _ & Hsame).
  destruct (Hsame _ (or_introl eq_refl)) as (Hperm & Hties).
  eexists _, _. split; [reflexivity|]. split; [reflexivity|].
  split; [reflexivity|]. split; [reflexivity|]. split.
  - apply (Halpha 0%nat 2%nat); [lia | reflexivity | reflexivity].
  - split; [exact Hperm|]. rewrite Hties. reflexivity.
Defined.

(** ** Facts about sorting again, filtering, and adding to a sorted list *)

Section SortAlgebra.

Context {A : Type} (comparefn : A → A → Z).

(** A list that is in order already is left as it is. *)
Lemma sortBy_sorted_id l :
  StronglySorted (λ x y, comparefn x y ≤ 0) l → sortBy comparefn l = l.
Proof.
  induction 1 as [|x l Hs IH Hx]; [done|].
  cbn [sortBy]. rewrite IH. destruct l as [|y l]; [done|].
  cbn [insertBy]. apply Forall_cons in Hx as [Hxy _].
  apply Z.leb_le in Hxy. by rewrite Hxy.
Qed.

Hypothesis comparefn_total : ∀ x y, 0 < comparefn x y → comparefn y x ≤ 0.
Hypothesis comparefn_trans :
  ∀ x y z, comparefn x y ≤ 0 → comparefn y z ≤ 0 → comparefn x z ≤ 0.

Lemma sortBy_idempotent l :
  sortBy comparefn (sortBy comparefn l) = sortBy comparefn l.
Proof. apply sortBy_sorted_id. by apply sortBy_sorted_le. Qed.

Lemma StronglySorted_filter (R : A → A → Prop) (P : A → Prop)
    `{∀ x, Decision (P x)} l :
  StronglySorted R l → StronglySorted R (filter P l).
Proof.
  induction 1 as [|x l Hs IH Hx]; [constructor|].
  rewrite filter_cons. destruct (decide (P x)); [|done].
  apply StronglySorted_cons. split; [|done].
  apply Forall_forall. intros y Hy. apply list_elem_of_filter in Hy as [_ Hy].
  rewrite Forall_forall in Hx. by apply Hx.
Qed.

Lemma filter_filter_comm (P Q : A → Prop)
    `{∀ x, Decision (P x)} `{∀ x, Decision (Q x)} (l : list A) :
  filter P (filter Q l) = filter Q (filter P l).
Proof.
  induction l as [|x l IH]; [done|].
  rewrite !(filter_cons _ x).
  destruct (decide (Q x)), (decide (P x)); rewrite ?filter_cons_True by done;
    rewrite ?filter_cons_False by done; by rewrite IH.
Qed.

(** Filtering a sorted list is sorting the filtered list. *)
Lemma sortBy_filter_comm (P : A → Prop) `{∀ x, Decision (P x)} l :
  filter P (sortBy comparefn l) = sortBy comparefn (filter P l).
Proof.
  apply sortBy_unique; [done..| |].
  - apply StronglySorted_filter. by apply sortBy_sorted_le.
  - intros x. rewrite filter_filter_comm, sortBy_stable by done.
    apply filter_filter_comm.
Qed.

(** Sorting a sorted list with more elements added at its end is sorting
    all the elements at once. *)
Lemma sortBy_app_sorted l1 l2 :
  sortBy comparefn (sortBy comparefn l1 ++ l2) = sortBy comparefn (l1 ++ l2).
Proof.
  symmetry. apply sortBy_unique; [done..| |].
  - by apply sortBy_sorted_le.
  - intros x. rewrite sortBy_stable by done.
    rewrite !filter_app. by rewrite sortBy_stable.
Qed.

End SortAlgebra.

(** ** Facts about the identifier scan *)

Lemma orZero_id x : orZero x = x.
Proof. unfold orZero. destruct (Z.eqb_spec x 0); congruence. Qed.

(** [getImageBlockUids] never throws: when the scan query raises it
    returns the empty list, and the console has the error after the
    opening message. *)
Theorem scan_failure_gives_no_identifiers error console :
  getImageBlockUids (Raises error) console
  = (Ok [],
     console ++ [LogEntry (lit "Getting image block UIDs...");
                 ErrorEntry (lit "Error fetching image UIDs:") error]).
Proof.
  unfold getImageBlockUids, tryCatch, mbind, M_bind, bind, modify, query, mret, M_ret,
    ret, throw.
  by rewrite <- app_assoc.
Qed.

(** The identifiers come back newest first: the result holds the rows of
    the scan, each once, in descending order of creation time, and rows of
    the same time in the order of the scan. *)
Theorem scan_sorted_newest_first rows console :
  ∃ sorted console',
    getImageBlockUids (Rows rows) console = (Ok sorted, console') ∧
    sorted ≡ₚ rows ∧
    StronglySorted (λ a b, b.2 ≤ a.2) sorted ∧
    ∀ t, filter (λ r, r.2 = t) sorted = filter (λ r, r.2 = t) rows.
Proof.
  eexists _, _. split; [reflexivity|]. split; [apply sortBy_perm|]. split.
  - apply sortBy_sorted.
    + intros x y. rewrite !orZero_id. lia.
    + intros x y. rewrite !orZero_id. lia.
    + intros x y z. lia.
  - intros t. apply sortBy_filter. intros x y -> Hy. rewrite !orZero_id. lia.
Qed.

(** ** Facts about the context of a block *)

Section ContextFacts.

Variable parentQuery : jsstring → qresult jsstring.
Variable childrenQuery : jsstring → qresult jsstring.
Variable siblingsQuery : jsstring → qresult (jsstring * Z).

(** [getBlockContext] never throws and gives all or nothing: the three
    joined texts when the three queries are answered, and three empty
    texts as soon as one of them raises, whatever the queries before it
    answered.  It changes no array and no object. *)
Theorem context_all_or_nothing uid st :
  ∃ ctx st',
    getBlockContext parentQuery childrenQuery siblingsQuery uid st = (Ok ctx, st') ∧
    arrays st' = arrays st ∧ objects st' = objects st ∧
    (∀ parentResults childrenResults siblingsResults,
       parentQuery uid = Rows parentResults →
       childrenQuery uid = Rows childrenResults →
       siblingsQuery uid = Rows siblingsResults →
       ctx = Context (join space parentResults) (join space childrenResults)
                     (join space (fst <$> siblingsResults)) ∧
       consoleLog st' = consoleLog st) ∧
    (∀ error,
       parentQuery uid = Raises error ∨ childrenQuery uid = Raises error ∨
       siblingsQuery uid = Raises error →
       ctx = Context [] [] [] ∧
       ∃ message error', consoleLog st' = consoleLog st ++ [(message, error')]).
Proof.
  unfold getBlockContext, tryCatch, q, consoleErrorS, query,
    mbind, M_bind, bind, modify, mret, M_ret, ret, throw.
  destruct (parentQuery uid) as [p|e1]; [destruct (childrenQuery uid) as [c|e2];
    [destruct (siblingsQuery uid) as [s|e3]|]|];
    (eexists _, _; split; [reflexivity|]; cbn [arrays objects consoleLog];
     split; [done|]; split; [done|]; split).
  - intros ??? [= <-] [= <-] [= <-]. done.
  - intros error [?|[?|?]]; done.
  - intros ??? _ _ [=].
  - intros _ _. split; [done|]. by eexists _, _.
  - intros ??? _ [=].
  - intros _ _. split; [done|]. by eexists _, _.
  - intros ??? [=].
  - intros _ _. split; [done|]. by eexists _, _.
Qed.

(** The queries go out in the order parent, children, siblings, and the
    first one that raises is the last one sent. *)
Theorem context_queries_stop_at_failure uid st :
  ∃ ctx st',
    getBlockContext parentQuery childrenQuery siblingsQuery uid st = (Ok ctx, st') ∧
    queryLog st'
    = queryLog st ++
      (ParentQuery, uid) ::
      match parentQuery uid with
      | Raises _ => []
      | Rows _ =>
          (ChildrenQuery, uid) ::
          match childrenQuery uid with
          | Raises _ => []
          | Rows _ => [(SiblingsQuery, uid)]
          end
      end.
Proof.
  unfold getBlockContext, tryCatch, q, consoleErrorS, query,
    mbind, M_bind, bind, modify, mret, M_ret, ret, throw.
  destruct (parentQuery uid) as [p|e1]; [destruct (childrenQuery uid) as [c|e2];
    [destruct (siblingsQuery uid) as [s|e3]|]|];
    (eexists _, _; split; [reflexivity|]; cbn [queryLog];
     by rewrite <- ?app_assoc).
Qed.

End ContextFacts.

(** ** Facts about [sortImages] as an operation on lists *)

Section SortImagesAlgebra.

Variable localeCompare : jsstring → jsstring → Z.

Lemma sortImages_comparatorOf images sortOrder :
  sortImages localeCompare images sortOrder
  = sortBy (comparatorOf localeCompare sortOrder) images.
Proof.
  unfold sortImages, sortCopy, comparatorOf.
  destruct (decide (sortOrder = lit "newest")) as [->|Hn]; [done|].
  destruct (decide (sortOrder = lit "oldest")); [done|].
  destruct (decide (sortOrder = lit "page-alpha")); [done|].
  destruct (decide (sortOrder = lit "page-reverse")); done.
Qed.

(** Sorting loses no image and adds none, in every mode and whatever
    [localeCompare] answers. *)
Theorem sortImages_permutation images sortOrder :
  sortImages localeCompare images sortOrder ≡ₚ images ∧
  length (sortImages localeCompare images sortOrder) = length images.
Proof.
  assert (sortImages localeCompare images sortOrder ≡ₚ images) as H
    by apply sortCopy_perm.
  split; [done | by rewrite H].
Qed.

Hypothesis localeCompare_sgn :
  ∀ s t, Z.sgn (localeCompare s t) = - Z.sgn (localeCompare t s).
Hypothesis localeCompare_trans :
  ∀ s t u, localeCompare s t ≤ 0 → localeCompare t u ≤ 0 → localeCompare s u ≤ 0.

Lemma comparatorOf_total sortOrder x y :
  0 < comparatorOf localeCompare sortOrder x y →
  comparatorOf localeCompare sortOrder y x ≤ 0.
Proof.
  unfold comparatorOf. repeat case_decide.
  - destruct (createTime x), (createTime y); lia.
  - pose proof (localeCompare_sgn (pageTitle x) (pageTitle y)). lia.
  - pose proof (localeCompare_sgn (pageTitle x) (pageTitle y)). lia.
  - destruct (createTime x), (createTime y); lia.
Qed.

Lemma comparatorOf_trans sortOrder x y z :
  comparatorOf localeCompare sortOrder x y ≤ 0 →
  comparatorOf localeCompare sortOrder y z ≤ 0 →
  comparatorOf localeCompare sortOrder x z ≤ 0.
Proof.
  unfold comparatorOf. repeat case_decide.
  - destruct (createTime x), (createTime y), (createTime z); lia.
  - apply localeCompare_trans.
  - intros. by eapply localeCompare_trans.
  - destruct (createTime x), (createTime y), (createTime z); lia.
Qed.

Lemma sortImages_sorted_again images sortOrder :
  sortImages localeCompare (sortImages localeCompare images sortOrder) sortOrder
  = sortImages localeCompare images sortOrder.
Proof.
  rewrite !sortImages_comparatorOf.
  apply sortBy_idempotent; [apply comparatorOf_total | apply comparatorOf_trans].
Qed.

Lemma sortImages_append_sorted images newImages sortOrder :
  sortImages localeCompare
    (sortImages localeCompare images sortOrder ++ newImages) sortOrder
  = sortImages localeCompare (images ++ newImages) sortOrder.
Proof.
  rewrite !sortImages_comparatorOf.
  apply sortBy_app_sorted; [apply comparatorOf_total | apply comparatorOf_trans].
Qed.

(** Sorting a sorted list again in the same mode changes nothing. *)
Theorem sortImages_idempotent images sortOrder :
  sortImages localeCompare (sortImages localeCompare images sortOrder) sortOrder
  = sortImages localeCompare images sortOrder.
Proof.
  rewrite !sortImages_comparatorOf. apply sortBy_idempotent.
  - apply comparatorOf_total.
  - apply comparatorOf_trans.
Qed.

(** Adding records at the end of a sorted list and sorting again gives
    what sorting all the records at once gives. *)
Theorem sortImages_incremental images newImages sortOrder :
  sortImages localeCompare
    (sortImages localeCompare images sortOrder ++ newImages) sortOrder
  = sortImages localeCompare (images ++ newImages) sortOrder.
Proof.
  rewrite !sortImages_comparatorOf. apply sortBy_app_sorted.
  - apply comparatorOf_total.
  - apply comparatorOf_trans.
Qed.

(** Choosing records from a sorted list gives the list that sorting the
    chosen records gives. *)
Lemma sortImages_filter (P : image → Prop) `{∀ x, Decision (P x)} images sortOrder :
  filter P (sortImages localeCompare images sortOrder)
  = sortImages localeCompare (filter P images) sortOrder.
Proof.
  rewrite !sortImages_comparatorOf. apply sortBy_filter_comm.
  - apply comparatorOf_total.
  - apply comparatorOf_trans.
Qed.

End SortImagesAlgebra.

(** ** Facts about pages *)

Lemma pageImagesOf_take_drop perPage images page :
  0 < perPage → (1 ≤ page)%nat →
  pageImagesOf perPage images page
  = take (Z.to_nat perPage) (drop ((page - 1) * Z.to_nat perPage) images).
Proof.
  intros Hp Hpage. unfold pageImagesOf, jsSlice, relativeIndex.
  set (len := length images). set (p := Z.to_nat perPage).
  assert ((Z.of_nat page - 1) * perPage = Z.of_nat ((page - 1) * p)) as -> by (unfold p; nia).
  set (start := ((page - 1) * p)%nat).
  assert ((Z.of_nat start <? 0) = false) as -> by (apply Z.ltb_ge; lia).
  assert ((Z.min (Z.of_nat start + perPage) (Z.of_nat len) <? 0) = false) as ->
    by (apply Z.ltb_ge; lia).
  rewrite Nat2Z.id.
  destruct (decide (start ≤ len)%nat) as [Hle|Hgt].
  - rewrite (Nat.min_l start len) by lia.
    destruct (decide (start + p ≤ len)%nat).
    + f_equal. lia.
    + rewrite !take_ge; [done | rewrite length_drop; lia | rewrite length_drop; lia].
  - rewrite (Nat.min_r start len) by lia.
    rewrite !drop_ge by lia. by rewrite !take_nil.
Qed.

Lemma concat_chunks {A} (p n : nat) (l : list A) :
  concat ((λ k, take p (drop (k * p) l)) <$> seq 0 n) = take (n * p) l.
Proof.
  induction n as [|n IH]; [by rewrite take_0|].
  rewrite seq_S, fmap_app, concat_app, IH. cbn [fmap list_fmap concat].
  rewrite app_nil_r, take_take_drop. f_equal. lia.
Qed.

Lemma totalPages_bounds len perPage :
  0 < perPage →
  0 ≤ - ((- Z.of_nat len) / perPage) ∧
  Z.of_nat len ≤ - ((- Z.of_nat len) / perPage) * perPage ∧
  (- ((- Z.of_nat len) / perPage) - 1) * perPage < Z.of_nat len.
Proof.
  intros Hp. pose proof (Z.div_mod (- Z.of_nat len) perPage ltac:(lia)).
  pose proof (Z.mod_pos_bound (- Z.of_nat len) perPage Hp). nia.
Qed.

(** The pages 1 to [totalPages] show every image once, in the order of the
    list: put end to end they are the list. *)
Theorem pages_partition_images perPage images totalPages :
  0 < perPage →
  totalPagesOf (length images) perPage = Pages totalPages →
  concat (pageImagesOf perPage images <$> seq 1 (Z.to_nat totalPages)) = images.
Proof.
  intros Hp Ht. unfold totalPagesOf in Ht.
  destruct (Z.eqb_spec perPage 0) as [|_]; [lia|]. injection Ht as <-.
  destruct (totalPages_bounds (length images) perPage Hp) as (H0 & Hup & _).
  set (n := Z.to_nat (- (- Z.of_nat (length images) / perPage))).
  rewrite <- fmap_S_seq, <- list_fmap_compose.
  rewrite (list_fmap_ext _ (λ k, take (Z.to_nat perPage)
                                   (drop (k * Z.to_nat perPage) images)) (seq 0 n)).
  - rewrite concat_chunks. apply take_ge. unfold n. nia.
  - intros i k _. cbn [compose]. rewrite pageImagesOf_take_drop by lia.
    do 2 f_equal. lia.
Qed.

(** A page never shows more than [IMAGES_PER_PAGE] images; the pages
    before the last are full, the pages 1 to [totalPages] show at least one
    image, and a page after the last shows none. *)
Theorem page_sizes perPage images page totalPages :
  0 < perPage → (1 ≤ page)%nat →
  totalPagesOf (length images) perPage = Pages totalPages →
  Z.of_nat (length (pageImagesOf perPage images page)) ≤ perPage ∧
  (Z.of_nat page < totalPages →
   Z.of_nat (length (pageImagesOf perPage images page)) = perPage) ∧
  (Z.of_nat page ≤ totalPages → pageImagesOf perPage images page ≠ []) ∧
  (totalPages < Z.of_nat page → pageImagesOf perPage images page = []).
Proof.
  intros Hp Hpage Ht. unfold totalPagesOf in Ht.
  destruct (Z.eqb_spec perPage 0) as [|_]; [lia|]. injection Ht as <-.
  destruct (totalPages_bounds (length images) perPage Hp) as (H0 & Hup & Hlow).
  rewrite pageImagesOf_take_drop by done.
  split; [|split; [|split]].
  - rewrite length_take. lia.
  - intros Hlt. rewrite length_take, length_drop. nia.
  - intros Hle Hnil. apply (f_equal length) in Hnil.
    rewrite length_take, length_drop in Hnil. cbn [length] in Hnil. nia.
  - intros Hgt. rewrite drop_ge; [by rewrite take_nil | nia].
Qed.

(** ** Facts about the columns of the grid *)

Lemma shortestFrom_none heights i minHeight targetColumn :
  Forall (λ h, minHeight ≤ h) heights →
  shortestFrom heights i minHeight targetColumn = targetColumn.
Proof.
  intros H. revert i. induction H as [|h heights Hh H IH]; intros i; [done|].
  cbn [shortestFrom]. assert ((h <? minHeight) = false) as -> by (apply Z.ltb_ge; lia).
  apply IH.
Qed.

Lemma shortestFrom_app l1 l2 i minHeight targetColumn :
  Forall (λ h, minHeight ≤ h) l1 →
  shortestFrom (l1 ++ l2) i minHeight targetColumn
  = shortestFrom l2 (i + length l1) minHeight targetColumn.
Proof.
  intros H. revert i. induction H as [|h l1 Hh H IH]; intros i.
  - cbn [app length]. f_equal. lia.
  - cbn [app shortestFrom length].
    assert ((h <? minHeight) = false) as -> by (apply Z.ltb_ge; lia).
    rewrite IH. f_equal. lia.
Qed.

(** When the first [r] columns are one tile higher than the others, the
    shortest column is column [r]. *)
Lemma shortestColumn_staircase (a b : Z) (r m : nat) :
  b < a → (0 < m)%nat →
  shortestColumn (replicate r a ++ replicate m b) = r.
Proof.
  intros Hab Hm. destruct m as [|m]; [lia|]. destruct r as [|r].
  - cbn [replicate app shortestColumn]. apply shortestFrom_none.
    apply Forall_replicate. lia.
  - cbn [replicate app shortestColumn].
    rewrite shortestFrom_app by (apply Forall_replicate; lia).
    rewrite length_replicate. cbn [shortestFrom].
    assert ((b <? a) = true) as -> by (apply Z.ltb_lt; lia).
    apply shortestFrom_none. apply Forall_replicate. lia.
Qed.

Lemma row_column_unique (n p j q r : nat) :
  (j < n)%nat → (r < n)%nat → (p * n + j = q * n + r)%nat → p = q ∧ j = r.
Proof. intros. destruct (Nat.lt_trichotomy p q) as [|[|]]; nia. Qed.

Section Layout.

Variable n : nat.
Hypothesis n_positive : (0 < n)%nat.

(** the heights after [q] full rows and [r] more tiles *)
Local Abbreviation staircase q r :=
  (replicate r (300 * (Z.of_nat q + 1)) ++ replicate (n - r) (300 * Z.of_nat q)).

Lemma staircase_next q r :
  (r < n)%nat →
  <[r := (staircase q r !!! r) + 300]> (staircase q r)
  = if decide (r + 1 < n)%nat then staircase q (r + 1) else staircase (q + 1) 0.
Proof.
  intros Hr.
  assert (staircase q r !! r = Some (300 * Z.of_nat q)) as Hlook.
  { rewrite lookup_app_r by (rewrite length_replicate; lia).
    rewrite length_replicate, Nat.sub_diag. apply lookup_replicate_2. lia. }
  rewrite (list_lookup_total_correct _ _ _ Hlook).
  rewrite insert_app_r_alt by (rewrite length_replicate; lia).
  rewrite length_replicate, Nat.sub_diag.
  destruct (n - r)%nat as [|m] eqn:Em; [lia|]. cbn [replicate].
  change (<[0%nat := ?x]> (?y :: ?l)) with (x :: l).
  replace (300 * Z.of_nat q + 300) with (300 * (Z.of_nat q + 1)) by lia.
  rewrite cons_middle, app_assoc, <- replicate_S_end.
  destruct (decide (r + 1 < n)%nat).
  - replace (r + 1)%nat with (S r) by lia. do 2 f_equal. lia.
  - assert (m = 0%nat) as -> by lia. assert (n = S r) as -> by lia.
    cbn [replicate app Nat.sub]. rewrite app_nil_r.
    f_equal; [lia|]. f_equal. lia.
Qed.

(** The tiles placed so far, [done], of which [q * n + r] there are, lie
    row after row in the columns. *)
Lemma forEachPlace_rows rest done cols q r c :
  (r < n)%nat → length done = (q * n + r)%nat → length cols = n →
  (∀ j p, (j < n)%nat → cols !! j ≫= (.!! p) = done !! (p * n + j)%nat) →
  ∃ cols' heights',
    forEachPlace rest (cols, staircase q r) c = (Ok (cols', heights'), c) ∧
    length cols' = n ∧
    ∀ j p, (j < n)%nat → cols' !! j ≫= (.!! p) = (done ++ rest) !! (p * n + j)%nat.
Proof.
  revert done cols q r. induction rest as [|img rest IH];
    intros done cols q r Hr Hlen Hcols Hinv.
  - exists cols, (staircase q r). rewrite app_nil_r. done.
  - cbn [forEachPlace]. unfold mbind at 1, M_bind at 1, bind at 1.
    unfold placeImage. rewrite shortestColumn_staircase by lia.
    destruct (lookup_lt_is_Some_2 cols r ltac:(lia)) as [col Hcol].
    rewrite Hcol. unfold mret at 1, M_ret at 1, ret at 1.
    rewrite staircase_next by done.
    assert (length col = q) as Hq.
    { pose proof (Hinv r) as Hr'. rewrite Hcol in Hr'. cbn [mbind option_bind] in Hr'.
      assert (∀ p, (p < length col ↔ p * n + r < q * n + r)%nat) as Hiff.
      { intros p. rewrite <- Hlen, <- !lookup_lt_is_Some, Hr' by done. done. }
      pose proof (Hiff (length col)). pose proof (Hiff q). nia. }
    assert (∀ j p, (j < n)%nat →
              <[r := col ++ [img]]> cols !! j ≫= (.!! p)
              = (done ++ [img]) !! (p * n + j)%nat) as Hinv'.
    { intros j p Hj. rewrite lookup_app. destruct (decide (j = r)) as [->|Hne].
      - rewrite list_lookup_insert_eq by lia. cbn [mbind option_bind].
        rewrite lookup_app. pose proof (Hinv r p Hr) as Hp. rewrite Hcol in Hp.
        cbn [mbind option_bind] in Hp. rewrite Hp.
        destruct (done !! (p * n + r)%nat) eqn:E; [done|].
        apply lookup_ge_None in E. clear Hp.
        assert (q ≤ p)%nat by nia.
        destruct (decide (p = q)) as [->|].
        + rewrite Hq, Hlen, !Nat.sub_diag. done.
        + rewrite !lookup_ge_None_2; [done | cbn [length]; nia | cbn [length]; lia].
      - rewrite list_lookup_insert_ne by done. rewrite Hinv by done.
        destruct (done !! (p * n + j)%nat) eqn:E; [done|].
        apply lookup_ge_None in E. symmetry. apply lookup_ge_None_2.
        pose proof (row_column_unique n p j q r Hj Hr). cbn [length]. lia. }
    destruct (decide (r + 1 < n)%nat).
    + destruct (IH (done ++ [img]) (<[r := col ++ [img]]> cols) q (r + 1)%nat)
        as (cols' & heights' & E & Hlen' & Hinv''); try done.
      * rewrite length_app. cbn [length]. lia.
      * by rewrite length_insert.
      * exists cols', heights'. rewrite <- app_assoc in Hinv''. done.
    + destruct (IH (done ++ [img]) (<[r := col ++ [img]]> cols) (q + 1)%nat 0%nat)
        as (cols' & heights' & E & Hlen' & Hinv''); try done.
      * rewrite length_app. cbn [length]. nia.
      * by rewrite length_insert.
      * exists cols', heights'. rewrite <- app_assoc in Hinv''. done.
Qed.

End Layout.

(** ** Facts about [createImageGrid] *)

Lemma createImageGrid_effect images page allImages d :
  createImageGrid images page allImages d
  = (Ok (), Dataset (match allImages with
                     | Some all => Some all
                     | None => dataAllImages d
                     end) (Some images) (Some page)).
Proof. by destruct allImages. Qed.

(** With at least one column [createImageGrid] ends normally: it writes
    the data set, records the call, and shows a grid whose columns hold
    the images of the page row after row. *)
Lemma createImageGridView_ok perRow perPage images page allImages c :
  0 < perRow →
  ∃ cols,
    createImageGridView perRow perPage images page allImages c
    = (Ok (),
       Container
         (Dataset (match allImages with
                   | Some all => Some all
                   | None => dataAllImages (dataOf c)
                   end) (Some images) (Some page))
         (GridShown (GridView cols
            (if perPage <? Z.of_nat (length images) then
               Some {| prevDisabled := bool_decide (page = 1%nat);
                       prevTarget := Z.of_nat page - 1;
                       nextDisabled := isPage page (totalPagesOf (length images) perPage);
                       nextTarget := Z.of_nat page + 1;
                       pagerPage := page;
                       pagerTotal := totalPagesOf (length images) perPage;
                       pagerImages := length images |}
             else None)))
         (drawn c ++ [(images, page)])) ∧
    length cols = Z.to_nat perRow ∧
    ∀ j p, (j < Z.to_nat perRow)%nat →
      cols !! j ≫= (.!! p)
      = pageImagesOf perPage images page !! (p * Z.to_nat perRow + j)%nat.
Proof.
  intros Hrow. set (n := Z.to_nat perRow).
  set (c1 := Container
         (Dataset (match allImages with
                   | Some all => Some all
                   | None => dataAllImages (dataOf c)
                   end) (Some images) (Some page))
         Blank (drawn c ++ [(images, page)])).
  destruct (forEachPlace_rows n ltac:(lia) (pageImagesOf perPage images page) []
              (replicate n []) 0 0 c1) as (cols & heights & E & Hlen & Hinv).
  { lia. }
  { done. }
  { apply length_replicate. }
  { intros j p Hj. rewrite lookup_replicate_2 by done. cbn [mbind option_bind].
    by rewrite !lookup_nil. }
  exists cols. split; [|split; [done|]]; [|exact Hinv].
  unfold createImageGridView.
  unfold mbind at 1, M_bind at 1, bind at 1, modify at 1.
  unfold mbind at 1, M_bind at 1, bind at 1, zoom at 1.
  cbn [dataOf viewOf drawn]. rewrite createImageGrid_effect.
  fold c1. unfold mbind at 1, M_bind at 1, bind at 1, newColumns at 1.
  assert ((perRow <? 0) = false) as -> by (apply Z.ltb_ge; lia).
  unfold mret at 1, M_ret at 1, ret at 1. fold n.
  unfold mbind at 1, M_bind at 1, bind at 1.
  cbn [replicate app Nat.sub] in E. rewrite Nat.sub_0_r in E.
  change (300 * Z.of_nat 0) with 0 in E. rewrite E. cbn [fst].
  unfold mbind at 1, M_bind at 1, bind at 1, setView at 1, modify at 1.
  cbn [dataOf drawn c1].
  destruct (perPage <? Z.of_nat (length images)); reflexivity.
Qed.

(** What [createImageGrid] does whatever the settings are: the call is
    recorded and the data set written first; then the grid is made, unless
    there is no column for it. *)
Lemma createImageGridView_effect perRow perPage images page allImages c :
  ∃ r view,
    createImageGridView perRow perPage images page allImages c
    = (r,
       Container
         (Dataset (match allImages with
                   | Some all => Some all
                   | None => dataAllImages (dataOf c)
                   end) (Some images) (Some page))
         view (drawn c ++ [(images, page)])) ∧
    (0 < perRow → r = Ok tt ∧ ∃ g, view = GridShown g) ∧
    (r = Ok tt ∨
     (perRow < 0 ∧ r = Throw rangeError ∧ view = Blank) ∨
     (perRow = 0 ∧ r = Throw typeError ∧ view = Blank)).
Proof.
  destruct (Z.lt_trichotomy perRow 0) as [Hneg | [-> | Hpos]].
  - unfold createImageGridView.
    unfold mbind at 1, M_bind at 1, bind at 1, modify at 1.
    unfold mbind at 1, M_bind at 1, bind at 1, zoom at 1.
    cbn [dataOf viewOf drawn]. rewrite createImageGrid_effect.
    unfold mbind at 1, M_bind at 1, bind at 1, newColumns at 1.
    assert ((perRow <? 0) = true) as -> by (apply Z.ltb_lt; lia).
    unfold throw. eexists _, _. split; [reflexivity|]. split; [lia|]. right. left. done.
  - unfold createImageGridView.
    unfold mbind at 1, M_bind at 1, bind at 1, modify at 1.
    unfold mbind at 1, M_bind at 1, bind at 1, zoom at 1.
    cbn [dataOf viewOf drawn]. rewrite createImageGrid_effect.
    unfold mbind at 1, M_bind at 1, bind at 1, newColumns at 1.
    cbn [Z.ltb Z.compare Z.to_nat replicate]. unfold mret at 1, M_ret at 1, ret at 1.
    destruct (pageImagesOf perPage images page) as [|img rest].
    + cbn [forEachPlace]. unfold mbind, M_bind, bind, mret, M_ret, ret, setView, modify.
      cbn [dataOf viewOf drawn fst].
      destruct (perPage <? Z.of_nat (length images));
        (eexists _, _; split; [reflexivity|]; split; [lia | by left]).
    + cbn [forEachPlace]. unfold mbind at 1, M_bind at 1, bind at 1.
      unfold placeImage, throw. cbn [shortestColumn lookup list_lookup].
      eexists _, _. split; [reflexivity|]. split; [lia|]. right. right. done.
  - destruct (createImageGridView_ok perRow perPage images page allImages c Hpos)
      as (cols & E & _ & _).
    eexists _, _. split; [exact E|]. split; [|by left].
    intros _. split; [done|]. by eexists.
Qed.

(** The tiles go to the columns in turn: with [IMAGES_PER_ROW] columns, the
    image number [i] of the page (from 0) is tile number [i / IMAGES_PER_ROW]
    of column [i mod IMAGES_PER_ROW], and the columns hold nothing else. *)
Theorem grid_fills_columns_in_turn perRow perPage images page allImages c :
  0 < perRow →
  ∃ g c',
    createImageGridView perRow perPage images page allImages c = (Ok (), c') ∧
    viewOf c' = GridShown g ∧
    length (columns g) = Z.to_nat perRow ∧
    (∀ i img, pageImagesOf perPage images page !! i = Some img →
       ∃ column, columns g !! (i mod Z.to_nat perRow)%nat = Some column ∧
                 column !! (i / Z.to_nat perRow)%nat = Some img) ∧
    (∀ j p column img, columns g !! j = Some column → column !! p = Some img →
       pageImagesOf perPage images page !! (p * Z.to_nat perRow + j)%nat = Some img).
Proof.
  intros Hrow.
  destruct (createImageGridView_ok perRow perPage images page allImages c Hrow)
    as (cols & E & Hlen & Hinv).
  eexists _, _. split; [exact E|]. cbn [viewOf].
  split; [reflexivity|]. cbn [columns]. split; [done|]. split.
  - intros i img Hi. set (n := Z.to_nat perRow) in *.
    assert (i mod n < n)%nat as Hj by (apply Nat.mod_upper_bound; lia).
    pose proof (Hinv (i mod n)%nat (i / n)%nat Hj) as H.
    replace (i / n * n + i mod n)%nat with i in H
      by (pose proof (Nat.div_mod_eq i n); lia).
    rewrite Hi in H. destruct (cols !! (i mod n)%nat) as [column|]; [|done].
    exists column. split; [done | exact H].
  - intros j p column img Hcol Himg.
    assert (j < Z.to_nat perRow)%nat as Hj.
    { rewrite <- Hlen. by eapply lookup_lt_Some. }
    rewrite <- (Hinv j p Hj), Hcol. done.
Qed.

(** When [createImageGrid] ends normally, which a positive
    [IMAGES_PER_ROW] ensures, the pagination controls are there when, and
    only when, the list has more than [IMAGES_PER_PAGE] images, whatever
    the page is; [Previous] is disabled on page 1 only and [Next] only on
    the page whose number is the number of pages.  With a positive
    [IMAGES_PER_PAGE] and one of the pages 1 to [totalPages] shown, a button
    that is not disabled asks for one of the pages 1 to [totalPages]. *)
Theorem pagination_stays_in_range perRow perPage images page allImages c :
  0 < perRow →
  ∃ g c',
    createImageGridView perRow perPage images page allImages c = (Ok (), c') ∧
    viewOf c' = GridShown g ∧
    (pagination g = None ↔ Z.of_nat (length images) ≤ perPage) ∧
    (perPage < Z.of_nat (length images) →
     ∃ pg, pagination g = Some pg ∧
       pagerTotal pg = totalPagesOf (length images) perPage ∧
       (prevDisabled pg = true ↔ page = 1%nat) ∧
       (nextDisabled pg = true ↔ pagerTotal pg = Pages (Z.of_nat page)) ∧
       prevTarget pg = Z.of_nat page - 1 ∧
       nextTarget pg = Z.of_nat page + 1 ∧
       ∀ totalPages,
         0 < perPage → pagerTotal pg = Pages totalPages →
         1 ≤ Z.of_nat page ≤ totalPages →
         (prevDisabled pg = false → 1 ≤ prevTarget pg ≤ totalPages) ∧
         (nextDisabled pg = false → 1 ≤ nextTarget pg ≤ totalPages)).
Proof.
  intros Hrow.
  destruct (createImageGridView_ok perRow perPage images page allImages c Hrow)
    as (cols & E & _ & _).
  eexists _, _. split; [exact E|]. cbn [viewOf].
  split; [reflexivity|]. cbn [pagination]. split.
  - destruct (Z.ltb_spec perPage (Z.of_nat (length images))); split; (done || lia).
  - intros Hlt. assert ((perPage <? Z.of_nat (length images)) = true) as ->
      by (apply Z.ltb_lt; lia).
    eexists. split; [reflexivity|].
    cbn [pagerTotal prevDisabled nextDisabled prevTarget nextTarget].
    split; [done|]. split; [apply bool_decide_eq_true|]. split.
    { unfold isPage. destruct (totalPagesOf (length images) perPage) as [n|].
      - rewrite Z.eqb_eq. split; [by intros -> | by intros [= ->]].
      - split; [done | intros [=]]. }
    split; [done|]. split; [done|].
    intros totalPages Hp Ht Hpage. rewrite Ht. cbn [isPage]. split.
    + intros Hprev. apply bool_decide_eq_false in Hprev. lia.
    + intros Hnext. apply Z.eqb_neq in Hnext. lia.
Qed.

(** Without a column nothing can be shown: with [IMAGES_PER_ROW] at 0 and
    an image on the page, [createImageGrid] throws a [TypeError], and with
    a negative [IMAGES_PER_ROW] a [RangeError]; the container is left
    empty, with the data set already written. *)
Theorem grid_without_columns_throws perRow perPage images page allImages c :
  perRow < 0 ∨ (perRow = 0 ∧ pageImagesOf perPage images page ≠ []) →
  ∃ error c',
    createImageGridView perRow perPage images page allImages c = (Throw error, c') ∧
    error = (if perRow <? 0 then rangeError else typeError) ∧
    viewOf c' = Blank ∧
    dataImages (dataOf c') = Some images ∧
    dataCurrentPage (dataOf c') = Some page.
Proof.
  intros H. unfold createImageGridView.
  unfold mbind at 1, M_bind at 1, bind at 1, modify at 1.
  unfold mbind at 1, M_bind at 1, bind at 1, zoom at 1.
  cbn [dataOf viewOf drawn]. rewrite createImageGrid_effect.
  unfold mbind at 1, M_bind at 1, bind at 1, newColumns at 1.
  destruct H as [Hneg | [-> Hne]].
  - assert ((perRow <? 0) = true) as -> by (apply Z.ltb_lt; lia).
    unfold throw. eexists _, _. split; [reflexivity|]. done.
  - cbn [Z.ltb Z.compare Z.to_nat replicate]. unfold mret at 1, M_ret at 1, ret at 1.
    destruct (pageImagesOf perPage images page) as [|img rest]; [done|].
    cbn [forEachPlace]. unfold mbind at 1, M_bind at 1, bind at 1.
    unfold placeImage, throw. cbn [shortestColumn lookup list_lookup].
    eexists _, _. split; [reflexivity|]. done.
Qed.

(** ** Facts about the sort handler *)

Lemma drawGrid_ok images page allImages a :
  0 < IMAGES_PER_ROW a →
  ∃ g,
    drawGrid images page allImages a
    = (Ok (),
       set_contentOf
         (Container
            (Dataset (match allImages with
                      | Some all => Some all
                      | None => dataAllImages (dataOf (contentOf a))
                      end) (Some images) (Some page))
            (GridShown g)
            (drawn (contentOf a) ++ [(images, page)])) a).
Proof.
  intros Hrow.
  destruct (createImageGridView_ok (IMAGES_PER_ROW a) (IMAGES_PER_PAGE a) images page
              allImages (contentOf a) Hrow) as (cols & E & _ & _).
  eexists. unfold drawGrid, mbind, M_bind, bind, gets, onContent, zoom.
  rewrite E. reflexivity.
Qed.

Lemma drawGrid_effect images page allImages a :
  ∃ r view,
    drawGrid images page allImages a
    = (r,
       set_contentOf
         (Container
            (Dataset (match allImages with
                      | Some all => Some all
                      | None => dataAllImages (dataOf (contentOf a))
                      end) (Some images) (Some page))
            view (drawn (contentOf a) ++ [(images, page)])) a) ∧
    (0 < IMAGES_PER_ROW a → r = Ok tt ∧ ∃ g, view = GridShown g) ∧
    (r = Ok tt ∨
     (IMAGES_PER_ROW a < 0 ∧ r = Throw rangeError ∧ view = Blank) ∨
     (IMAGES_PER_ROW a = 0 ∧ r = Throw typeError ∧ view = Blank)).
Proof.
  destruct (createImageGridView_effect (IMAGES_PER_ROW a) (IMAGES_PER_PAGE a) images page
              allImages (contentOf a)) as (r & view & E & Hok & Hcases).
  exists r, view. split; [|done].
  unfold drawGrid, mbind, M_bind, bind, gets, onContent, zoom. by rewrite E.
Qed.

Lemma filter_includes_nil (l : list image) :
  filter (λ img, includes (searchableContent img) [] = true) l = l.
Proof.
  induction l as [|img l IH]; [done|].
  rewrite filter_cons_True by apply includes_nil. by f_equal.
Qed.

Section HandlerFacts.

Variable toLowerCase : jsstring → jsstring.
Variable localeCompare : jsstring → jsstring → Z.

(** the records a search for [value] keeps *)
Local Abbreviation found value allImages :=
  (filter (λ img, includes (searchableContent img) (toLowerCase value) = true) allImages).

(** the search handler with a list stored: the filtered list is sorted
    and written to the data set, and [createImageGrid] is called with it *)
Lemma oninput_effect value a allImages :
  dataAllImages (dataOf (contentOf a)) = Some allImages →
  oninput toLowerCase localeCompare value a
  = drawGrid (sortImages localeCompare (found value allImages) (SORT_ORDER a)) 1 None
      (set_contentOf
         (Container
            (Dataset (Some allImages)
               (Some (sortImages localeCompare (found value allImages) (SORT_ORDER a)))
               (dataCurrentPage (dataOf (contentOf a))))
            (viewOf (contentOf a)) (drawn (contentOf a))) a).
Proof.
  intros Hall. unfold oninput.
  unfold mbind at 1, M_bind at 1, bind at 1, gets at 1. rewrite Hall.
  unfold mbind at 1, M_bind at 1, bind at 1, gets at 1.
  unfold mbind at 1, M_bind at 1, bind at 1, onDataset at 1, onContent at 1,
    zoom at 1, zoom at 1, modify at 1.
  rewrite Hall.
  assert ((if truthy (toLowerCase value) then found value allImages else allImages)
          = found value allImages) as ->; [|done].
  destruct (toLowerCase value) as [|ch term]; cbn [truthy]; [|done].
  by rewrite filter_includes_nil.
Qed.

(** the sort handler with a list stored: the order is stored, the sorted
    list is written to the data set, and [createImageGrid] is called with
    it *)
Lemma sortSelector_onchange_effect value a allImages :
  dataAllImages (dataOf (contentOf a)) = Some allImages →
  sortSelector_onchange localeCompare value a
  = drawGrid (sortImages localeCompare allImages value) 1
      (Some (sortImages localeCompare allImages value))
      (set_contentOf
         (Container
            (Dataset (Some (sortImages localeCompare allImages value))
               (Some (sortImages localeCompare allImages value))
               (dataCurrentPage (dataOf (contentOf a))))
            (viewOf (contentOf a)) (drawn (contentOf a)))
         (set_localStorage (<[lit "imager-sort-order" := value]> (localStorage a))
            (set_SORT_ORDER value a))).
Proof.
  intros Hall. unfold sortSelector_onchange.
  unfold mbind at 1, M_bind at 1, bind at 1, modify at 1.
  unfold mbind at 1, M_bind at 1, bind at 1, gets at 1.
  unfold mbind at 1, M_bind at 1, bind at 1, modify at 1.
  unfold mbind at 1, M_bind at 1, bind at 1, gets at 1.
  cbn [set_SORT_ORDER set_localStorage SORT_ORDER contentOf localStorage].
  rewrite Hall.
  unfold mbind at 1, M_bind at 1, bind at 1, gets at 1. cbn [SORT_ORDER].
  unfold mbind at 1, M_bind at 1, bind at 1, onDataset at 1, onContent at 1,
    zoom at 1, zoom at 1, modify at 1.
  unfold mbind at 1, M_bind at 1, bind at 1, onDataset at 1, onContent at 1,
    zoom at 1, zoom at 1, modify at 1.
  reflexivity.
Qed.



Hypothesis localeCompare_sgn :
  ∀ s t, Z.sgn (localeCompare s t) = - Z.sgn (localeCompare t s).
Hypothesis localeCompare_trans :
  ∀ s t u, localeCompare s t ≤ 0 → localeCompare t u ≤ 0 → localeCompare s u ≤ 0.

(** A search after a change of the sort order, with a list stored and a
    [localeCompare] that is a consistent comparison function, gives what
    the search gives on the list as it was before, in the new order: the
    records of the list whose text contains the term, sorted once.  That
    list is stored as the list shown and handed to [createImageGrid],
    whatever [IMAGES_PER_ROW] is; with a positive [IMAGES_PER_ROW] both
    handlers end normally and a grid is shown. *)
Theorem search_after_sort_change value term a allImages :
  dataAllImages (dataOf (contentOf a)) = Some allImages →
  ∃ r1 a' r2 a'',
    sortSelector_onchange localeCompare value a = (r1, a') ∧
    oninput toLowerCase localeCompare term a' = (r2, a'') ∧
    dataImages (dataOf (contentOf a''))
    = Some (sortImages localeCompare
              (filter (λ img, includes (searchableContent img) (toLowerCase term) = true)
                      allImages) value) ∧
    dataAllImages (dataOf (contentOf a''))
    = Some (sortImages localeCompare allImages value) ∧
    drawn (contentOf a'')
    = drawn (contentOf a) ++
      [(sortImages localeCompare allImages value, 1%nat);
       (sortImages localeCompare
          (filter (λ img, includes (searchableContent img) (toLowerCase term) = true)
                  allImages) value, 1%nat)] ∧
    (0 < IMAGES_PER_ROW a →
     r1 = Ok tt ∧ r2 = Ok tt ∧ ∃ g, viewOf (contentOf a'') = GridShown g).
Proof.
  intros Hall.
  rewrite (sortSelector_onchange_effect value a allImages Hall).
  match goal with |- ∃ r1 a' r2 a'', drawGrid ?i ?p ?al ?st = _ ∧ _ =>
    destruct (drawGrid_effect i p al st) as (r1 & view1 & E1 & Hok1 & _) end.
  cbn [set_contentOf set_localStorage set_SORT_ORDER IMAGES_PER_ROW contentOf dataOf
         dataAllImages drawn] in E1, Hok1.
  rewrite E1.
  match type of E1 with _ = (_, ?st) =>
    exists r1, st;
    rewrite (oninput_effect term st (sortImages localeCompare allImages value) eq_refl)
  end.
  cbn [set_contentOf set_localStorage set_SORT_ORDER SORT_ORDER contentOf dataOf
         dataAllImages dataCurrentPage drawn viewOf].
  match goal with |- ∃ r2 a'', _ = _ ∧ drawGrid ?i ?p ?al ?st = _ ∧ _ =>
    destruct (drawGrid_effect i p al st) as (r2 & view2 & E2 & Hok2 & _) end.
  cbn [set_contentOf set_localStorage set_SORT_ORDER IMAGES_PER_ROW contentOf dataOf
         dataAllImages drawn] in E2, Hok2.
  eexists r2, _. split; [reflexivity|]. split; [exact E2|].
  cbn [set_contentOf contentOf dataOf dataAllImages dataImages drawn viewOf].
  rewrite sortImages_filter, sortImages_sorted_again by done.
  split; [done|]. split; [done|]. split; [by rewrite <- app_assoc|].
  intros Hrow. destruct (Hok1 Hrow) as [-> _]. destruct (Hok2 Hrow) as [-> Hg]. done.
Qed.

End HandlerFacts.

(** ** Facts about the loading of the gallery *)

Ltac mstep := unfold mbind at 1, M_bind at 1, bind at 1.

Ltac simpl_gallery :=
  cbn [set_SORT_ORDER set_localStorage set_popupOpen set_contentOf set_searchDisabled
       set_loadingInfo set_consoleOf set_enrichmentRuns SORT_ORDER IMAGES_PER_ROW
       IMAGES_PER_PAGE localStorage popupOpen contentOf searchDisabled loadingInfo
       consoleOf enrichmentRuns dataOf viewOf drawn dataAllImages dataImages
       dataCurrentPage] in *.

Section GalleryFacts.

Variable toLowerCase : jsstring → jsstring.
Variable localeCompare : jsstring → jsstring → Z.
Variable blockQuery : jsstring → qresult (jsstring * jsstring).

(** the records of a list of identifiers, block after block *)
Local Abbreviation recordsOfAll uids :=
  (concat (blockRecords toLowerCase blockQuery <$> uids)).
Local Abbreviation hydrateLoop' :=
  (hydrateLoop toLowerCase localeCompare blockQuery).

Lemma recordsOfAll_app (l1 l2 : list (jsstring * Z)) :
  recordsOfAll (l1 ++ l2) = recordsOfAll l1 ++ recordsOfAll l2.
Proof. by rewrite fmap_app, concat_app. Qed.

Lemma slice_take_drop {A} (l : list A) i k :
  slice i (Nat.min (i + k) (length l)) l = take k (drop i l).
Proof.
  unfold slice. destruct (decide (i + k ≤ length l)%nat).
  - f_equal. lia.
  - rewrite !take_ge; [done | rewrite length_drop; lia | rewrite length_drop; lia].
Qed.

Hypothesis localeCompare_sgn :
  ∀ s t, Z.sgn (localeCompare s t) = - Z.sgn (localeCompare t s).
Hypothesis localeCompare_trans :
  ∀ s t u, localeCompare s t ≤ 0 → localeCompare t u ≤ 0 → localeCompare s u ≤ 0.

(** The batches that arrive while another page than page 1 is shown. *)
Lemma hydrateLoop_other_page fuel total remainingUids i allImages a :
  currentPageOf (dataOf (contentOf a)) ≠ 1%nat →
  (length remainingUids ≤ i + 50 * fuel)%nat →
  ∃ a',
    hydrateLoop' fuel total remainingUids i allImages a
    = (Ok (if (i <? length remainingUids)%nat
           then sortImages localeCompare
                  (allImages ++ recordsOfAll (drop i remainingUids)) (SORT_ORDER a)
           else allImages), a') ∧
    SORT_ORDER a' = SORT_ORDER a ∧
    viewOf (contentOf a') = viewOf (contentOf a) ∧
    drawn (contentOf a') = drawn (contentOf a) ∧
    dataCurrentPage (dataOf (contentOf a')) = dataCurrentPage (dataOf (contentOf a)) ∧
    ((i < length remainingUids)%nat →
     dataAllImages (dataOf (contentOf a'))
     = Some (sortImages localeCompare
               (allImages ++ recordsOfAll (drop i remainingUids)) (SORT_ORDER a)) ∧
     dataImages (dataOf (contentOf a'))
     = Some (sortImages localeCompare
               (allImages ++ recordsOfAll (drop i remainingUids)) (SORT_ORDER a))).
Proof.
  revert i allImages a. induction fuel as [|fuel IH]; intros i allImages a Hpage Hfuel.
  - exists a. cbn [hydrateLoop].
    assert ((i <? length remainingUids)%nat = false) as -> by (apply Nat.ltb_ge; lia).
    split; [done|]. repeat (split; [done|]). lia.
  - cbn [hydrateLoop]. destruct (i <? length remainingUids)%nat eqn:Ei.
    2: { exists a. split; [done|]. repeat (split; [done|]).
         apply Nat.ltb_ge in Ei. lia. }
    apply Nat.ltb_lt in Ei.
    mstep. unfold await at 1. rewrite processImageBatch_records.
    mstep. unfold gets at 1. mstep. unfold modify at 1. mstep. unfold gets at 1.
    simpl_gallery.
    assert ((currentPageOf (dataOf (contentOf a)) =? 1)%nat = false) as ->
      by (by apply Nat.eqb_neq).
    mstep. mstep. unfold onDataset at 1, onContent at 1, zoom at 1, zoom at 1, modify at 1.
    unfold onDataset at 1, onContent at 1, zoom at 1, zoom at 1, modify at 1.
    simpl_gallery. rewrite slice_take_drop.
    set (all1 := sortImages localeCompare
                   (allImages ++ recordsOfAll (take 50 (drop i remainingUids)))
                   (SORT_ORDER a)).
    match goal with |- ∃ a', hydrateLoop' _ _ _ _ _ ?st = _ ∧ _ =>
      destruct (IH (i + 50)%nat all1 st) as (a' & E & Hs & Hv & Hd & Hp & Hdata) end.
    { done. }
    { lia. }
    simpl_gallery. exists a'. rewrite E.
    assert ((if (i + 50 <? length remainingUids)%nat
             then sortImages localeCompare
                    (all1 ++ recordsOfAll (drop (i + 50) remainingUids)) (SORT_ORDER a)
             else all1)
            = sortImages localeCompare
                (allImages ++ recordsOfAll (drop i remainingUids)) (SORT_ORDER a)) as Hfinal.
    { rewrite <- (take_drop 50 (drop i remainingUids)).
      rewrite drop_drop, recordsOfAll_app, app_assoc.
      destruct (i + 50 <? length remainingUids)%nat eqn:Ei'.
      - unfold all1. by rewrite sortImages_append_sorted.
      - apply Nat.ltb_ge in Ei'. rewrite (drop_ge remainingUids (i + 50)) by lia.
        cbn [fmap list_fmap concat]. by rewrite app_nil_r. }
    rewrite Hfinal. split; [done|]. repeat (split; [done|]). intros _.
    destruct (i + 50 <? length remainingUids)%nat eqn:Ei'.
    + apply Nat.ltb_lt in Ei'. rewrite <- Hfinal. by apply Hdata.
    + rewrite <- Hfinal. apply Nat.ltb_ge in Ei'.
      (* no further batch: the lists are those of this batch *)
      destruct fuel as [|fuel'].
      * cbn [hydrateLoop] in E.
        assert ((i + 50 <? length remainingUids)%nat = false) as Hf
          by (apply Nat.ltb_ge; lia).
        rewrite Hf in E. injection E as <-. done.
      * cbn [hydrateLoop] in E.
        assert ((i + 50 <? length remainingUids)%nat = false) as Hf
          by (apply Nat.ltb_ge; lia).
        rewrite Hf in E. injection E as <-. done.
Qed.

(** While another page than page 1 is shown, the batches that arrive
    redraw nothing and leave the page as it is; they only replace the two
    stored lists, in the end by the sorted list of the images there were
    and the images of all the batches. *)
Theorem batches_on_another_page_only_store total remainingUids allImages a :
  currentPageOf (dataOf (contentOf a)) ≠ 1%nat →
  remainingUids ≠ [] →
  ∃ final a',
    hydrateLoop' (length remainingUids) total remainingUids 0 allImages a
    = (Ok final, a') ∧
    final = sortImages localeCompare (allImages ++ recordsOfAll remainingUids)
              (SORT_ORDER a) ∧
    viewOf (contentOf a') = viewOf (contentOf a) ∧
    drawn (contentOf a') = drawn (contentOf a) ∧
    dataCurrentPage (dataOf (contentOf a')) = dataCurrentPage (dataOf (contentOf a)) ∧
    dataAllImages (dataOf (contentOf a')) = Some final ∧
    dataImages (dataOf (contentOf a')) = Some final.
Proof.
  intros Hpage Hne.
  destruct (hydrateLoop_other_page (length remainingUids) total remainingUids 0
              allImages a Hpage ltac:(lia)) as (a' & E & _ & Hv & Hd & Hp & Hdata).
  assert (0 < length remainingUids)%nat as Hlen by (destruct remainingUids; [done | cbn; lia]).
  assert ((0 <? length remainingUids)%nat = true) as Hlt by (by apply Nat.ltb_lt).
  rewrite Hlt, drop_0 in E. rewrite drop_0 in Hdata.
  destruct (Hdata Hlen) as [Hall Himg]. eexists _, a'. done.
Qed.

Lemma ceil50_step (len i : nat) :
  (i < len)%nat → ((len - i + 49) / 50 = S ((len - (i + 50) + 49) / 50))%nat.
Proof.
  intros Hi. destruct (decide (len - i ≤ 50)%nat).
  - replace (len - (i + 50))%nat with 0%nat by lia.
    change ((0 + 49) / 50)%nat with 0%nat.
    symmetry. apply (Nat.div_unique _ 50 1 (len - i - 1)); lia.
  - replace (len - i + 49)%nat with ((len - (i + 50) + 49) + 1 * 50)%nat by lia.
    rewrite Nat.div_add by lia. lia.
Qed.

Section FirstPage.

Variable uids : list (jsstring * Z).
Variable mode : jsstring.
Variable total : nat.

(** what is drawn after the batch number [k]: the first [50 * k]
    identifiers, sorted, on page 1 *)
Local Abbreviation drawnAfter k :=
  (sortImages localeCompare (recordsOfAll (take (50 * k) uids)) mode, 1%nat).

(** The batches that arrive while page 1 is shown, from batch [j + 2]
    on. *)
Lemma hydrateLoop_first_page fuel j a :
  SORT_ORDER a = mode → 0 < IMAGES_PER_ROW a →
  currentPageOf (dataOf (contentOf a)) = 1%nat →
  (length (drop 50 uids) ≤ 50 * j + 50 * fuel)%nat →
  ∃ a',
    hydrateLoop' fuel total (drop 50 uids) (50 * j)
      (sortImages localeCompare (recordsOfAll (take (50 + 50 * j) uids)) mode) a
    = (Ok (sortImages localeCompare (recordsOfAll uids) mode), a') ∧
    SORT_ORDER a' = SORT_ORDER a ∧ IMAGES_PER_ROW a' = IMAGES_PER_ROW a ∧
    IMAGES_PER_PAGE a' = IMAGES_PER_PAGE a ∧ localStorage a' = localStorage a ∧
    popupOpen a' = popupOpen a ∧ searchDisabled a' = searchDisabled a ∧
    consoleOf a' = consoleOf a ∧ enrichmentRuns a' = enrichmentRuns a ∧
    drawn (contentOf a')
    = drawn (contentOf a) ++
      ((λ k, drawnAfter k) <$> seq (j + 2) ((length (drop 50 uids) - 50 * j + 49) / 50)) ∧
    dataOf (contentOf a')
    = (if (50 * j <? length (drop 50 uids))%nat
       then Dataset (Some (sortImages localeCompare (recordsOfAll uids) mode))
                    (Some (sortImages localeCompare (recordsOfAll uids) mode))
                    (Some 1%nat)
       else dataOf (contentOf a)).
Proof.
  revert j a. induction fuel as [|fuel IH]; intros j a Hmode Hrow Hpage Hfuel.
  - exists a. cbn [hydrateLoop].
    assert ((50 * j <? length (drop 50 uids))%nat = false) as -> by (apply Nat.ltb_ge; lia).
    rewrite length_drop in Hfuel.
    rewrite (take_ge uids (50 + 50 * j)) by lia.
    split; [done|]. repeat (split; [done|]).
    replace (length (drop 50 uids) - 50 * j)%nat with 0%nat by (rewrite length_drop; lia).
    change ((0 + 49) / 50)%nat with 0%nat. cbn [seq fmap list_fmap].
    by rewrite app_nil_r.
  - cbn [hydrateLoop]. destruct (50 * j <? length (drop 50 uids))%nat eqn:Ei.
    2: { exists a. apply Nat.ltb_ge in Ei. rewrite length_drop in Ei.
         rewrite (take_ge uids (50 + 50 * j)) by lia.
         split; [done|]. repeat (split; [done|]).
         replace (length (drop 50 uids) - 50 * j)%nat with 0%nat
           by (rewrite length_drop; lia).
         change ((0 + 49) / 50)%nat with 0%nat. cbn [seq fmap list_fmap].
         by rewrite app_nil_r. }
    apply Nat.ltb_lt in Ei.
    mstep. unfold await at 1. rewrite processImageBatch_records.
    mstep. unfold gets at 1. mstep. unfold modify at 1. mstep. unfold gets at 1.
    simpl_gallery. rewrite Hpage. cbn [Nat.eqb]. rewrite Hmode.
    rewrite slice_take_drop, drop_drop.
    rewrite sortImages_append_sorted by done.
    rewrite <- recordsOfAll_app, take_take_drop.
    replace (50 + 50 * j + 50)%nat with (50 + 50 * (j + 1))%nat by lia.
    set (all1 := sortImages localeCompare
                   (recordsOfAll (take (50 + 50 * (j + 1)) uids)) mode).
    mstep.
    match goal with |- ∃ a', match drawGrid ?i ?p ?al ?st with _ => _ end = _ ∧ _ =>
      destruct (drawGrid_ok i p al st) as (g & Eg) end.
    { done. }
    rewrite Eg. simpl_gallery.
    replace (50 * j + 50)%nat with (50 * (j + 1))%nat by lia.
    match goal with |- ∃ a', hydrateLoop' _ _ _ _ _ ?st = _ ∧ _ =>
      destruct (IH (j + 1)%nat st)
        as (a' & E & Hs & Hr & Hpp & Hls & Hpo & Hsd & Hco & Her & Hdr & Hdata) end.
    { done. }
    { done. }
    { done. }
    { lia. }
    simpl_gallery. rewrite Hmode in Hs. exists a'. split; [exact E|].
    repeat (split; [done|]). split.
    + rewrite Hdr, <- app_assoc. f_equal.
      rewrite (ceil50_step _ (50 * j)) by done. cbn [seq fmap list_fmap app].
      replace (50 * j + 50)%nat with (50 * (j + 1))%nat by lia.
      replace (j + 1 + 2)%nat with (S (j + 2)) by lia.
      f_equal. unfold all1.
      replace (50 + 50 * (j + 1))%nat with (50 * (j + 2))%nat by lia. done.
    + rewrite Hdata. destruct (50 * (j + 1) <? length (drop 50 uids))%nat eqn:Ej; [done|].
      apply Nat.ltb_ge in Ej. rewrite length_drop in Ej.
      unfold all1. rewrite (take_ge uids (50 + 50 * (j + 1))) by lia. done.
Qed.

End FirstPage.

Local Abbreviation showImageGallery' scanQuery :=
  (showImageGallery toLowerCase localeCompare scanQuery blockQuery).

(** the identifiers as the scan returns them *)
Local Abbreviation scanned rows :=
  (sortBy (λ a b : jsstring * Z, orZero b.2 - orZero a.2) rows).

Lemma createPopup_effect a :
  createPopup a
  = (Ok tt,
     set_popupOpen true
       (set_loadingInfo None
          (set_searchDisabled true
             (set_contentOf (Container (Dataset None None None) LoadingIndicator []) a)))).
Proof. reflexivity. Qed.

Lemma scan_rows rows console :
  getImageBlockUids (Rows rows) console
  = (Ok (scanned rows),
     console ++ [LogEntry (lit "Getting image block UIDs...")]
             ++ [LogEntry (lit "Found " ++ decimal (length rows) ++
                           lit " blocks potentially containing images")]).
Proof.
  unfold getImageBlockUids, tryCatch, mbind, M_bind, bind, modify, query, mret, M_ret, ret.
  by rewrite <- app_assoc.
Qed.

Lemma scan_raises error console :
  getImageBlockUids (Raises error) console
  = (Ok [],
     console ++ [LogEntry (lit "Getting image block UIDs...")]
             ++ [ErrorEntry (lit "Error fetching image UIDs:") error]).
Proof.
  unfold getImageBlockUids, tryCatch, mbind, M_bind, bind, modify, query, mret, M_ret, ret,
    throw.
  by rewrite <- app_assoc.
Qed.

(** A run of [showImageGallery] on a scan that found blocks. *)
Lemma showImageGallery_run rows a :
  popupOpen a = false → 0 < IMAGES_PER_ROW a → rows ≠ [] →
  let uids := scanned rows in
  let final := sortImages localeCompare (recordsOfAll uids) (SORT_ORDER a) in
  ∃ a',
    showImageGallery' (Rows rows) a = (Ok tt, a') ∧
    SORT_ORDER a' = SORT_ORDER a ∧ IMAGES_PER_ROW a' = IMAGES_PER_ROW a ∧
    IMAGES_PER_PAGE a' = IMAGES_PER_PAGE a ∧ localStorage a' = localStorage a ∧
    popupOpen a' = true ∧ searchDisabled a' = false ∧ loadingInfo a' = None ∧
    enrichmentRuns a'
    = enrichmentRuns a ++ (if (50 <? length rows)%nat then [final] else []) ∧
    drawn (contentOf a')
    = (λ k, (sortImages localeCompare (recordsOfAll (take (50 * k) uids)) (SORT_ORDER a),
             1%nat)) <$> seq 1 ((length rows + 49) / 50) ∧
    dataOf (contentOf a') = Dataset (Some final) (Some final) (Some 1%nat).
Proof.
  intros Hopen Hrow Hrows uids final.
  assert (length uids = length rows) as Hlen by (unfold uids; by rewrite sortBy_perm).
  assert (0 < length rows)%nat as Hpos by (destruct rows; [done | cbn; lia]).
  unfold showImageGallery. mstep. unfold gets at 1. rewrite Hopen.
  mstep. rewrite createPopup_effect.
  mstep. unfold zoom at 1. simpl_gallery. rewrite scan_rows. fold uids.
  assert ((length uids =? 0)%nat = false) as -> by (apply Nat.eqb_neq; lia).
  assert (drop (50 `min` length uids) uids = drop 50 uids) as ->.
  { destruct (decide (50 ≤ length uids)%nat).
    - by rewrite Nat.min_l.
    - rewrite Nat.min_r by lia. by rewrite !drop_ge by lia. }
  change (50 `min` length uids)%nat with ((0 + 50) `min` length uids)%nat.
  rewrite slice_take_drop, drop_0.
  mstep. unfold await at 1. rewrite processImageBatch_records.
  mstep. unfold gets at 1. simpl_gallery.
  mstep.
  match goal with |- ∃ a', match drawGrid ?i ?p ?al ?st with _ => _ end = _ ∧ _ =>
    destruct (drawGrid_ok i p al st) as (g & Eg) end.
  { done. }
  rewrite Eg. simpl_gallery. rewrite length_drop, Hlen.
  destruct (0 <? length rows - 50)%nat eqn:Emore.
  - apply Nat.ltb_lt in Emore.
    assert ((50 <? length rows)%nat = true) as -> by (apply Nat.ltb_lt; lia).
    mstep. unfold modify at 1. simpl_gallery. mstep.
    match goal with |- ∃ a', (let '(_, _) := hydrateLoop' _ _ _ _ _ ?st in _) = _ ∧ _ =>
      destruct (hydrateLoop_first_page uids (SORT_ORDER a) (length rows)
                  (length rows - 50) 0 st)
        as (a1 & E & Hs & Hr & Hpp & Hls & Hpo & Hsd & Hco & Her & Hdr & Hdata) end.
    { done. }
    { done. }
    { done. }
    { rewrite length_drop. lia. }
    change (50 * 0)%nat with 0%nat in *. change (50 + 0)%nat with 50%nat in E.
    rewrite E. simpl_gallery.
    unfold mbind, M_bind, bind, modify, enableSearch, gets. simpl_gallery.
    unfold mbind, M_bind, bind. simpl_gallery. rewrite Hpo. simpl_gallery.
    unfold modify. simpl_gallery.
    eexists. split; [reflexivity|]. simpl_gallery.
    rewrite length_drop, Hlen in Hdr, Hdata.
    assert ((0 <? length rows - 50)%nat = true) as Hlt by (by apply Nat.ltb_lt).
    rewrite Hlt in Hdata.
    repeat (split; [done|]). split; [by rewrite Her|]. split; [|done].
    pose proof (ceil50_step (length rows) 0 ltac:(lia)) as Hc.
    rewrite Nat.sub_0_r in Hc. rewrite Hdr, Hc.
    replace (length rows - 50 - 0)%nat with (length rows - (0 + 50))%nat by lia.
    cbn [seq fmap list_fmap app Nat.add]. done.
  - apply Nat.ltb_ge in Emore.
    assert ((50 <? length rows)%nat = false) as -> by (apply Nat.ltb_ge; lia).
    unfold enableSearch, mbind, M_bind, bind, modify, gets. simpl_gallery.
    eexists. split; [reflexivity|]. simpl_gallery.
    assert (take 50 uids = uids) as Htake by (apply take_ge; lia).
    repeat (split; [done|]). split; [by rewrite app_nil_r|].
    split; [|by rewrite Htake].
    replace ((length rows + 49) / 50)%nat with 1%nat
      by (apply (Nat.div_unique _ 50 1 (length rows - 1)); lia).
    cbn [seq fmap list_fmap app]. by rewrite Htake, take_ge by lia.
Qed.

(** Loading in batches gives what loading at once gives: when
    [showImageGallery] has run on a scan that found blocks, with no other
    handler in between, the list shown and the list kept for searching are
    the records [processImageBatch] returns for the whole scan, sorted once
    in the current mode; page 1 is shown, the loading text is gone and the
    search box is enabled. *)
Theorem gallery_loads_all_images rows a :
  popupOpen a = false → 0 < IMAGES_PER_ROW a → rows ≠ [] →
  ∃ a' uids console records,
    showImageGallery toLowerCase localeCompare (Rows rows) blockQuery a = (Ok tt, a') ∧
    getImageBlockUids (Rows rows) (consoleOf a) = (Ok uids, console) ∧
    processImageBatch toLowerCase blockQuery uids = Ok records ∧
    dataAllImages (dataOf (contentOf a'))
    = Some (sortImages localeCompare records (SORT_ORDER a)) ∧
    dataImages (dataOf (contentOf a'))
    = Some (sortImages localeCompare records (SORT_ORDER a)) ∧
    dataCurrentPage (dataOf (contentOf a')) = Some 1%nat ∧
    SORT_ORDER a' = SORT_ORDER a ∧
    loadingInfo a' = None ∧ searchDisabled a' = false.
Proof.
  intros Hopen Hrow Hrows.
  destruct (showImageGallery_run rows a Hopen Hrow Hrows)
    as (a' & E & Hs & _ & _ & _ & _ & Hsd & Hli & _ & _ & Hdata).
  exists a'. eexists _, _, _. split; [exact E|].
  split; [apply scan_rows|]. split; [apply processImageBatch_records|].
  rewrite Hdata. done.
Qed.

(** a run on a scan that finds no block *)
Lemma showImageGallery_nothing_found a :
  popupOpen a = false →
  ∃ a',
    showImageGallery toLowerCase localeCompare (Rows []) blockQuery a = (Ok tt, a') ∧
    drawn (contentOf a') = [] ∧
    enrichmentRuns a' = enrichmentRuns a.
Proof.
  intros Hopen.
  unfold showImageGallery. mstep. unfold gets at 1. rewrite Hopen.
  mstep. rewrite createPopup_effect.
  mstep. unfold zoom at 1. simpl_gallery.
  rewrite scan_rows. cbn [sortBy length Nat.eqb].
  unfold onContent, zoom, setView, modify. simpl_gallery.
  eexists. split; [reflexivity|]. done.
Qed.

(** In a run of [showImageGallery] with the popup not yet open, a positive
    [IMAGES_PER_ROW], a [localeCompare] that is a consistent comparison
    function and no other handler in between, so that page 1 stays shown
    and the sort order stays what it is, the grid is drawn once for each
    batch of 50 identifiers, on page 1: the draw number [k] shows the
    sorted records of the first [50 * k] identifiers of the scan, and a
    scan of [n] identifiers gives [n / 50], rounded up, draws. *)
Theorem gallery_draws_after_each_batch rows a :
  popupOpen a = false → 0 < IMAGES_PER_ROW a →
  ∃ a' uids console,
    showImageGallery toLowerCase localeCompare (Rows rows) blockQuery a = (Ok tt, a') ∧
    getImageBlockUids (Rows rows) (consoleOf a) = (Ok uids, console) ∧
    length uids = length rows ∧
    drawn (contentOf a')
    = (λ k, (sortImages localeCompare (recordsOfAll (take (50 * k) uids)) (SORT_ORDER a),
             1%nat)) <$> seq 1 ((length rows + 49) / 50).
Proof.
  intros Hopen Hrow. destruct (decide (rows = [])) as [-> | Hrows].
  - destruct (showImageGallery_nothing_found a Hopen) as (a' & E & Hdr & _).
    exists a'. eexists _, _. split; [exact E|]. split; [apply scan_rows|].
    split; [done|]. rewrite Hdr. reflexivity.
  - destruct (showImageGallery_run rows a Hopen Hrow Hrows)
      as (a' & E & _ & _ & _ & _ & _ & _ & _ & _ & Hdr & _).
    exists a'. eexists _, _. split; [exact E|]. split; [apply scan_rows|].
    split; [by rewrite sortBy_perm | exact Hdr].
Qed.

(** In a run of [showImageGallery] with the popup not yet open, a positive
    [IMAGES_PER_ROW], a [localeCompare] that is a consistent comparison
    function and no other handler in between, the context enrichment is
    started only when the scan found more than 50 blocks: then once, on
    the final list; with 50 blocks or fewer, none included,
    [enhanceImagesWithContext] is never called. *)
Theorem gallery_enriches_beyond_first_batch rows a :
  popupOpen a = false → 0 < IMAGES_PER_ROW a →
  ∃ a',
    showImageGallery toLowerCase localeCompare (Rows rows) blockQuery a = (Ok tt, a') ∧
    ((length rows ≤ 50)%nat → enrichmentRuns a' = enrichmentRuns a) ∧
    ((50 < length rows)%nat →
     ∃ final, dataAllImages (dataOf (contentOf a')) = Some final ∧
              enrichmentRuns a' = enrichmentRuns a ++ [final]).
Proof.
  intros Hopen Hrow. destruct (decide (rows = [])) as [-> | Hrows].
  - destruct (showImageGallery_nothing_found a Hopen) as (a' & E & _ & Her).
    exists a'. split; [exact E|]. split; [done|]. cbn [length]. lia.
  - destruct (showImageGallery_run rows a Hopen Hrow Hrows)
      as (a' & E & _ & _ & _ & _ & _ & _ & _ & Her & _ & Hdata).
    exists a'. split; [exact E|]. split.
    + intros Hle. assert ((50 <? length rows)%nat = false) as Hf
        by (apply Nat.ltb_ge; lia).
      rewrite Hf in Her. by rewrite Her, app_nil_r.
    + intros Hlt. assert ((50 <? length rows)%nat = true) as Ht by (by apply Nat.ltb_lt).
      rewrite Ht in Her. eexists. rewrite Hdata. split; [reflexivity | exact Her].
Qed.

(** A scan that fails looks like a graph without images: in both cases the
    popup says that no image was found, no grid is drawn, the search box
    stays disabled and no enrichment is started. *)
Theorem gallery_without_images scanQuery a :
  popupOpen a = false →
  scanQuery = Rows [] ∨ (∃ error, scanQuery = Raises error) →
  ∃ a',
    showImageGallery toLowerCase localeCompare scanQuery blockQuery a = (Ok tt, a') ∧
    popupOpen a' = true ∧
    viewOf (contentOf a') = NoImagesFound ∧
    drawn (contentOf a') = [] ∧
    dataOf (contentOf a') = Dataset None None None ∧
    searchDisabled a' = true ∧
    enrichmentRuns a' = enrichmentRuns a.
Proof.
  intros Hopen Hscan.
  unfold showImageGallery. mstep. unfold gets at 1. rewrite Hopen.
  mstep. rewrite createPopup_effect.
  mstep. unfold zoom at 1. simpl_gallery.
  destruct Hscan as [-> | [error ->]].
  - rewrite scan_rows. cbn [sortBy length Nat.eqb].
    unfold onContent, zoom, setView, modify. simpl_gallery.
    eexists. split; [reflexivity|]. done.
  - rewrite scan_raises. cbn [length Nat.eqb].
    unfold onContent, zoom, setView, modify. simpl_gallery.
    eexists. split; [reflexivity|]. done.
Qed.

End GalleryFacts.

(** ** The facts above on sample data *)

Lemma sortImages_idempotent_witness :
  sortImages codeUnitCompare
    (sortImages codeUnitCompare sampleImages (lit "page-alpha")) (lit "page-alpha")
  = sortImages codeUnitCompare sampleImages (lit "page-alpha").
Proof.
  apply (sortImages_idempotent codeUnitCompare codeUnitCompare_sgn codeUnitCompare_trans).
Defined.

Lemma sortImages_incremental_witness :
  sortImages codeUnitCompare
    (sortImages codeUnitCompare (take 3 sampleImages) (lit "page-reverse")
     ++ drop 3 sampleImages) (lit "page-reverse")
  = sortImages codeUnitCompare sampleImages (lit "page-reverse").
Proof.
  apply (sortImages_incremental codeUnitCompare codeUnitCompare_sgn codeUnitCompare_trans
           (take 3 sampleImages) (drop 3 sampleImages)).
Defined.

Lemma pages_partition_images_witness :
  concat (pageImagesOf 2 sampleImages <$> seq 1 3) = sampleImages.
Proof.
  apply (pages_partition_images 2 sampleImages 3); [lia | reflexivity].
Defined.

Lemma page_sizes_witness :
  Z.of_nat (length (pageImagesOf 2 sampleImages 3)) ≤ 2 ∧
  pageImagesOf 2 sampleImages 3 ≠ [] ∧
  pageImagesOf 2 sampleImages 4 = [].
Proof.
  destruct (page_sizes 2 sampleImages 3 3) as (Hle & _ & Hne & _);
    [lia | lia | reflexivity |].
  destruct (page_sizes 2 sampleImages 4 3) as (_ & _ & _ & Hnil);
    [lia | lia | reflexivity |].
  split; [exact Hle|]. split; [apply Hne; lia | apply Hnil; lia].
Defined.

Lemma grid_fills_columns_in_turn_witness :
  ∃ g c',
    createImageGridView 2 50 sampleImages 1 None (contentOf initialGallery) = (Ok (), c') ∧
    viewOf c' = GridShown g ∧
    ∃ column, columns g !! 1%nat = Some column ∧
              column !! 1%nat = sampleImages !! 3%nat.
Proof.
  destruct (grid_fills_columns_in_turn 2 50 sampleImages 1 None (contentOf initialGallery))
    as (g & c' & E & Hv & _ & Hin & _); [lia|].
  exists g, c'. split; [exact E|]. split; [exact Hv|].
  exact (Hin 3%nat _ eq_refl).
Defined.

Lemma pagination_stays_in_range_witness :
  ∃ g c' pg,
    createImageGridView 6 2 sampleImages 2 None (contentOf initialGallery) = (Ok (), c') ∧
    viewOf c' = GridShown g ∧
    pagination g = Some pg ∧
    pagerTotal pg = Pages 3 ∧
    prevDisabled pg = false ∧ nextDisabled pg = false ∧
    1 ≤ prevTarget pg ≤ 3 ∧ 1 ≤ nextTarget pg ≤ 3.
Proof.
  destruct (pagination_stays_in_range 6 2 sampleImages 2 None (contentOf initialGallery))
    as (g & c' & E & Hv & _ & Hpg); [lia|].
  destruct Hpg as (pg & Hsome & Ht & Hprev & Hnext & _ & _ & Hrange); [cbn; lia|].
  assert (pagerTotal pg = Pages 3) as Ht3 by (rewrite Ht; reflexivity).
  assert (prevDisabled pg = false) as Hp.
  { destruct (prevDisabled pg); [|done]. discriminate (proj1 Hprev eq_refl). }
  assert (nextDisabled pg = false) as Hn.
  { destruct (nextDisabled pg); [|done].
    pose proof (proj1 Hnext eq_refl) as H. rewrite Ht3 in H. discriminate H. }
  destruct (Hrange 3 ltac:(lia) Ht3 ltac:(lia)) as [Hpt Hnt].
  exists g, c', pg. split; [exact E|]. split; [exact Hv|]. split; [exact Hsome|].
  split; [exact Ht3|]. split; [exact Hp|]. split; [exact Hn|].
  split; [exact (Hpt Hp) | exact (Hnt Hn)].
Defined.

Lemma grid_without_columns_throws_witness :
  ∃ c',
    createImageGridView 0 50 sampleImages 1 None (contentOf initialGallery)
    = (Throw typeError, c') ∧
    viewOf c' = Blank.
Proof.
  destruct (grid_without_columns_throws 0 50 sampleImages 1 None (contentOf initialGallery))
    as (error & c' & E & -> & Hv & _).
  { right. split; [reflexivity | by vm_compute]. }
  exists c'. split; [exact E | exact Hv].
Defined.


Lemma search_after_sort_change_witness :
  ∃ a' a'',
    sortSelector_onchange codeUnitCompare (lit "page-alpha") browsingGallery = (Ok (), a') ∧
    oninput asciiLowerCase codeUnitCompare (lit "A.PNG") a' = (Ok (), a'') ∧
    dataImages (dataOf (contentOf a''))
    = Some (sortImages codeUnitCompare
              (filter (λ img, includes (searchableContent img)
                                       (asciiLowerCase (lit "A.PNG")) = true)
                      sampleImages) (lit "page-alpha")).
Proof.
  destruct (search_after_sort_change asciiLowerCase codeUnitCompare codeUnitCompare_sgn
              codeUnitCompare_trans (lit "page-alpha") (lit "A.PNG") browsingGallery
              sampleImages eq_refl)
    as (r1 & a' & r2 & a'' & E1 & E2 & Hi & _ & _ & Hok).
  destruct Hok as (-> & -> & _); [cbn; lia|].
  exists a', a''. split; [exact E1|]. split; [exact E2 | exact Hi].
Defined.

Lemma batches_on_another_page_only_store_witness :
  ∃ final a',
    hydrateLoop asciiLowerCase codeUnitCompare (scenarioHost scenarioText)
      (length sampleRows) 170 sampleRows 0 [] browsingGallery
    = (Ok final, a') ∧
    length final = 240%nat ∧
    drawn (contentOf a') = [] ∧
    dataCurrentPage (dataOf (contentOf a')) = Some 2%nat ∧
    dataImages (dataOf (contentOf a')) = Some final.
Proof.
  destruct (batches_on_another_page_only_store asciiLowerCase codeUnitCompare
              (scenarioHost scenarioText) codeUnitCompare_sgn codeUnitCompare_trans
              170 sampleRows [] browsingGallery)
    as (final & a' & E & Hf & _ & Hd & Hp & _ & Hi).
  { cbn. lia. }
  { by vm_compute. }
  exists final, a'. split; [exact E|].
  split; [| split; [exact Hd | split; [exact Hp | exact Hi]]].
  rewrite Hf. vm_compute. reflexivity.
Defined.

Lemma gallery_loads_all_images_witness :
  ∃ a' records,
    showImageGallery asciiLowerCase codeUnitCompare (Rows sampleRows)
      (scenarioHost scenarioText) initialGallery = (Ok tt, a') ∧
    dataImages (dataOf (contentOf a'))
    = Some (sortImages codeUnitCompare records (lit "newest")) ∧
    length records = 240%nat ∧
    searchDisabled a' = false.
Proof.
  destruct (gallery_loads_all_images asciiLowerCase codeUnitCompare
              (scenarioHost scenarioText) codeUnitCompare_sgn codeUnitCompare_trans
              sampleRows initialGallery)
    as (a' & uids & console & records & E & Hu & Hr & _ & Hi & _ & _ & _ & Hsd).
  { reflexivity. }
  { cbn. lia. }
  { by vm_compute. }
  exists a', records. split; [exact E|]. split; [exact Hi|]. split; [|exact Hsd].
  vm_compute in Hu. injection Hu as <- _. vm_compute in Hr. injection Hr as <-.
  vm_compute. reflexivity.
Defined.

Lemma gallery_draws_after_each_batch_witness :
  ∃ a',
    showImageGallery asciiLowerCase codeUnitCompare (Rows sampleRows)
      (scenarioHost scenarioText) initialGallery = (Ok tt, a') ∧
    length (drawn (contentOf a')) = 3%nat.
Proof.
  destruct (gallery_draws_after_each_batch asciiLowerCase codeUnitCompare
              (scenarioHost scenarioText) codeUnitCompare_sgn codeUnitCompare_trans
              sampleRows initialGallery)
    as (a' & uids & console & E & _ & _ & Hd).
  { reflexivity. }
  { cbn. lia. }
  exists a'. split; [exact E|]. rewrite Hd, length_fmap, length_seq. reflexivity.
Defined.

Lemma gallery_enriches_beyond_first_batch_witness :
  ∃ a' final,
    showImageGallery asciiLowerCase codeUnitCompare (Rows sampleRows)
      (scenarioHost scenarioText) initialGallery = (Ok tt, a') ∧
    enrichmentRuns a' = [final] ∧
    ∃ a'',
      showImageGallery asciiLowerCase codeUnitCompare (Rows (take 50 sampleRows))
        (scenarioHost scenarioText) initialGallery = (Ok tt, a'') ∧
      enrichmentRuns a'' = [].
Proof.
  destruct (gallery_enriches_beyond_first_batch asciiLowerCase codeUnitCompare
              (scenarioHost scenarioText) codeUnitCompare_sgn codeUnitCompare_trans
              sampleRows initialGallery)
    as (a' & E & _ & Hmore).
  { reflexivity. }
  { cbn. lia. }
  destruct (gallery_enriches_beyond_first_batch asciiLowerCase codeUnitCompare
              (scenarioHost scenarioText) codeUnitCompare_sgn codeUnitCompare_trans
              (take 50 sampleRows) initialGallery)
    as (a'' & E' & Hfew & _).
  { reflexivity. }
  { cbn. lia. }
  destruct Hmore as (final & _ & Hruns); [vm_compute; lia|].
  exists a', final. split; [exact E|]. split; [exact Hruns|].
  exists a''. split; [exact E'|]. apply Hfew. vm_compute. lia.
Defined.

Lemma gallery_without_images_witness :
  ∃ a',
    showImageGallery asciiLowerCase codeUnitCompare (Raises (lit "timeout"))
      (scenarioHost scenarioText) initialGallery = (Ok tt, a') ∧
    viewOf (contentOf a') = NoImagesFound ∧
    searchDisabled a' = true.
Proof.
  destruct (gallery_without_images asciiLowerCase codeUnitCompare
              (scenarioHost scenarioText) (Raises (lit "timeout")) initialGallery)
    as (a' & E & _ & Hv & _ & _ & Hsd & _).
  { reflexivity. }
  { right. by eexists. }
  exists a'. done.
Defined.



Lemma batch_survives_failed_queries_witness :
  ∃ records,
    processImageBatch asciiLowerCase flakyHost
      [(lit "b1", 5); (lit "bad", 6); (lit "b2", 0)] = Ok records ∧
    (λ r, (uid r, url r, createTime r)) <$> records
    = [(lit "b1", lit "http://x.com/cat.png", Some 5);
       (lit "b1", lit "http://x.com/dog.jpg", Some 5);
       (lit "b2", lit "http://x.com/cat.png", None);
       (lit "b2", lit "http://x.com/dog.jpg", None)].
Proof.
  destruct (batch_survives_failed_queries asciiLowerCase flakyHost
              [(lit "b1", 5); (lit "bad", 6); (lit "b2", 0)]) as (per & E & Hper).
  assert (∃ l, processImageBatch asciiLowerCase flakyHost
                 [(lit "b1", 5); (lit "bad", 6); (lit "b2", 0)] = Ok l ∧
               (λ r, (uid r, url r, createTime r)) <$> l
               = [(lit "b1", lit "http://x.com/cat.png", Some 5);
                  (lit "b1", lit "http://x.com/dog.jpg", Some 5);
                  (lit "b2", lit "http://x.com/cat.png", None);
                  (lit "b2", lit "http://x.com/dog.jpg", None)]) as (l & El & Hl).
  { eexists. split; vm_compute; reflexivity. }
  pose proof E as E2. rewrite El in E2. injection E2 as ->.
  exists (concat per). split; [exact E | exact Hl].
Defined.
